(** * SortableTable: a sortable HTML table controller

    A shallow embedding of the [SortableTable] class (one TypeScript source
    file) and the properties of its sort/render state machine.

    Conventions of the embedding.
    - A JavaScript string is a [string]: a sequence of code units below 256.
      The relational operators on two strings compare code units
      lexicographically, which is [String.compare].
    - [null]/[undefined] arguments and fields are [None].
    - A [Row] is a plain object used as a map from column id to [Cell]: a
      [gmap] of its own cells. A name it has no cell for is looked up on
      [Object.prototype], as the language does ([cell_value]).
    - Row arrays live in a heap and the controller holds references to them,
      because [Array.prototype.sort] reorders the array it is called on and
      [originalData] and [displayData] may be the same array.
    - Methods run in a state-and-exception monad: a thrown error keeps the
      field updates made before the throw.
    - The DOM is the subtree under the table element: its [thead] and [tbody]
      children. Markup produced by a cell renderer is kept as an opaque
      string. Of what lies around the header cells (the rest of the page,
      the elements inside renderer markup) the state keeps the ids, which a
      search of the whole document by id can run into ([Document]). *)

From Stdlib Require Import ZArith NArith Ascii String List Permutation Sorted Lia.
From stdpp Require Import base option list gmap strings sorting.

Local Open Scope Z_scope.

(** ** Data model *)

Inductive SortDirection := asc | desc.

Record Column := mkColumn {
  id : string;
  label : string;
  sortable : bool;
  sortDirection : option SortDirection   (* [None]: the property is unset *)
}.

Record Cell := mkCell {
  value : string;
  cellRenderer : option (string → string)
}.

Abbreviation Row := (gmap string Cell).

(** References to row arrays. *)
Abbreviation loc := nat.

(** ** The numbers the comparison policy produces

    [Number(str)] is only ever applied to a string of ASCII digits (what is
    left of a string matching [^[0-9,]+$] once its commas are removed). Such a
    string denotes a natural number, which is rounded to the nearest IEEE 754
    double, ties to even; from [2^1024 - 2^970] on the result is [Infinity]. *)

Inductive number :=
| NaN
| Finite (n : N)
| Infinity.

Definition round_to_double (n : N) : number :=
  if (n <? 2 ^ 53)%N then Finite n
  else
    let e := (N.log2 n - 52)%N in
    let q := (n / 2 ^ e)%N in
    let r := (n mod 2 ^ e)%N in
    let half := (2 ^ (e - 1))%N in
    let q' := if (r <? half)%N then q
              else if (half <? r)%N then (q + 1)%N
              else if N.even q then q else (q + 1)%N in
    let m := (q' * 2 ^ e)%N in
    if (m <? 2 ^ 1024)%N then Finite m else Infinity.

Definition digit (c : ascii) : option N :=
  let n := N_of_ascii c in
  if (48 <=? n)%N && (n <=? 57)%N then Some (n - 48)%N else None.

Fixpoint digits_value (acc : N) (s : string) : option N :=
  match s with
  | EmptyString => Some acc
  | String c s' =>
      match digit c with
      | Some d => digits_value (acc * 10 + d)%N s'
      | None => None
      end
  end.

(** [Number(str)]. The empty string converts to 0. A string with a character
    that is not a digit is never passed by the sort; [NaN] stands for it. *)
Definition Number (str : string) : number :=
  match digits_value 0 str with
  | Some n => round_to_double n
  | None => NaN
  end.

Definition number_ltb (a b : number) : bool :=
  match a, b with
  | Finite x, Finite y => (x <? y)%N
  | Finite _, Infinity => true
  | _, _ => false
  end.

(** ** String helpers of the class *)

(** One character of the class [[0-9,]]. *)
Definition digit_or_comma (c : ascii) : bool :=
  match digit c with
  | Some _ => true
  | None => Ascii.eqb c ","
  end.

Fixpoint all_digit_or_comma (s : string) : bool :=
  match s with
  | EmptyString => true
  | String c s' => digit_or_comma c && all_digit_or_comma s'
  end.

(** [/^[0-9,]+$/.test(str)]: one or more characters, all digits or commas. *)
Definition canCastToNumber (str : string) : bool :=
  match str with
  | EmptyString => false
  | String _ _ => all_digit_or_comma str
  end.

(** [str.replace(/,/g, '')]. *)
Fixpoint removeCommas (str : string) : string :=
  match str with
  | EmptyString => EmptyString
  | String c s' =>
      if Ascii.eqb c "," then removeCommas s' else String c (removeCommas s')
  end.

(** ** The comparison callback of [_sort] *)

(** [valA] and [valB] after the optional cast: both strings, both numbers, or
    one of them at least [undefined]. [undefined] converts to [NaN] in a
    relational comparison, so it is neither below nor above anything. *)
Inductive Operands :=
| Strings (valA valB : string)
| Numbers (valA valB : number)
| WithUndefined.

Definition js_lt (o : Operands) : bool :=
  match o with
  | Strings a b => String.ltb a b
  | Numbers a b => number_ltb a b
  | WithUndefined => false
  end.

Definition js_gt (o : Operands) : bool :=
  match o with
  | Strings a b => String.ltb b a
  | Numbers a b => number_ltb b a
  | WithUndefined => false
  end.

Definition sign_of (direction : option SortDirection) : Z :=
  match direction with
  | Some asc => 1
  | _ => -1
  end.

(** The property names every plain object inherits from [Object.prototype]. *)
Definition Object_prototype : list string :=
  [ "constructor"; "hasOwnProperty"; "isPrototypeOf"; "propertyIsEnumerable";
    "toLocaleString"; "toString"; "valueOf"; "__proto__";
    "__defineGetter__"; "__defineSetter__"; "__lookupGetter__"; "__lookupSetter__" ].

(** [row[columnId].value]. For a cell of the row it is the cell's value. For
    a name the row has no cell for, the read goes on to the prototype: one of
    the inherited names gives a function (the prototype itself for
    [__proto__]), whose [.value] is [undefined], written [Some None]; any
    other name gives [undefined], and reading [.value] of it throws a
    [TypeError], written [None]. *)
Definition cell_value (columnId : string) (row : Row) : option (option string) :=
  match row !! columnId with
  | Some cell => Some (Some (value cell))
  | None => if bool_decide (columnId ∈ Object_prototype) then Some None else None
  end.

(** The arrow function handed to [Array.prototype.sort]; [None] when it
    throws. [canCastToNumber(undefined)] tests the text "undefined", which
    does not match, so an [undefined] operand is never cast. *)
Definition compareFn (columnId : string) (sign : Z) (a b : Row) : option Z :=
  valA ← cell_value columnId a;
  valB ← cell_value columnId b;
  let vals :=
    match valA, valB with
    | Some valA, Some valB =>
        if canCastToNumber valA && canCastToNumber valB
        then Numbers (Number (removeCommas valA)) (Number (removeCommas valB))
        else Strings valA valB
    | _, _ => WithUndefined
    end in
  Some (if js_lt vals then sign * -1
        else if js_gt vals then sign
        else 0).

(** ** [Array.prototype.sort]

    The language fixes the result of [sort] for a consistent comparison
    function: the stable sorted arrangement. This is a stable insertion sort,
    one conforming implementation. For a comparison function that is not
    consistent the language leaves the order to the implementation, so
    whatever is stated below about the order of a result is stated for
    consistent comparisons, or for rows that have one sorted arrangement
    only. A comparison that throws aborts the sort and leaves the array as it
    was. An array of fewer than two elements is never compared. *)

Section ArraySort.
Context {A : Type} (comparefn : A → A → option Z).

Fixpoint insert_sorted (x : A) (l : list A) : option (list A) :=
  match l with
  | [] => Some [x]
  | y :: l' =>
      c ← comparefn x y;
      if c <=? 0 then Some (x :: y :: l')
      else (y ::.) <$> insert_sorted x l'
  end.

Fixpoint Array_sort (l : list A) : option (list A) :=
  match l with
  | [] => Some []
  | x :: l' => Array_sort l' ≫= insert_sorted x
  end.
End ArraySort.

(** ** The DOM under the table element *)

Record Th := mkTh {
  th_id : string;                  (* [th.id] *)
  th_innerText : string;
  th_sortable : bool;              (* the [sortable] attribute is present *)
  th_data_id : option string;      (* the [data-id] attribute *)
  th_classList : list string;
  th_clickListeners : nat          (* click listeners installed so far *)
}.

Inductive Td :=
| td_innerHTML (markup : string)
| td_innerText (text : string).

(** A child of the table element; a [thead] holds one [tr] of [th] cells. *)
Inductive Node :=
| thead (tr : list Th)
| tbody (trs : list (list Td)).

(** An element handle: child index and position in that [thead]'s row. *)
Abbreviation ThRef := (nat * nat)%type.

Definition classList_add (c : string) (classes : list string) : list string :=
  if bool_decide (c ∈ classes) then classes else classes ++ [c].

Definition classList_remove (c : string) (classes : list string) : list string :=
  filter (λ c', c' ≠ c) classes.

Definition th_with_classList (f : list string → list string) (th : Th) : Th :=
  mkTh (th_id th) (th_innerText th) (th_sortable th) (th_data_id th)
       (f (th_classList th)) (th_clickListeners th).

(** [addEventListener('click', listener)]. The listener is a function bound
    afresh on every call, so the [removeEventListener] made just before it
    finds nothing to remove and the listeners add up. *)
Definition th_addEventListener (th : Th) : Th :=
  mkTh (th_id th) (th_innerText th) (th_sortable th) (th_data_id th)
       (th_classList th) (S (th_clickListeners th)).

Fixpoint find_index {A} (p : A → bool) (l : list A) : option nat :=
  match l with
  | [] => None
  | x :: l' => if p x then Some 0%nat else S <$> find_index p l'
  end.

(** The first header cell, in document order, that satisfies [p]. *)
Fixpoint first_th (p : Th → bool) (i : nat) (children : list Node) : option ThRef :=
  match children with
  | [] => None
  | thead tr :: rest =>
      match find_index p tr with
      | Some j => Some (i, j)
      | None => first_th p (S i) rest
      end
  | tbody _ :: rest => first_th p (S i) rest
  end.

Definition alter_th (f : Th → Th) (ref : ThRef) (children : list Node) : list Node :=
  alter (λ node, match node with
                 | thead tr => thead (alter f ref.2 tr)
                 | tbody trs => tbody trs
                 end) ref.1 children.

Definition map_th (f : Th → Th) (children : list Node) : list Node :=
  (λ node, match node with
           | thead tr => thead (f <$> tr)
           | tbody trs => tbody trs
           end) <$> children.

(** [removeChild] of the first [tbody], when there is one. *)
Fixpoint remove_first_tbody (children : list Node) : list Node :=
  match children with
  | [] => []
  | tbody _ :: rest => rest
  | node :: rest => node :: remove_first_tbody rest
  end.

(** ** The page around the table

    [document.getElementById] searches the whole document in tree order, not
    the table alone. Of the page around the header cells the model keeps what
    that search can tell: the ids carried by the elements that come before
    the content of the table (the table element itself among them), the ids
    carried by the elements that come after the table, and the ids the HTML
    parser gives the elements of a piece of renderer markup. *)
Record Document := mkDocument {
  ids_before_table : list string;
  ids_after_table : list string;
  ids_of_markup : string → list string
}.

(** What a search by id finds: a header cell of the table, or an element
    that is not one. *)
Inductive Element :=
| header_cell (th : ThRef)
| other_element.

Definition td_has_id (doc : Document) (elementId : string) (td : Td) : bool :=
  match td with
  | td_innerHTML markup => bool_decide (elementId ∈ ids_of_markup doc markup)
  | td_innerText _ => false
  end.

(** The first element under the table, in document order, that carries the
    id: a header cell, or an element of the markup in a body cell. *)
Fixpoint first_with_id (doc : Document) (elementId : string) (i : nat)
    (children : list Node) : option Element :=
  match children with
  | [] => None
  | thead tr :: rest =>
      match find_index (λ th, bool_decide (th_id th = elementId)) tr with
      | Some j => Some (header_cell (i, j))
      | None => first_with_id doc elementId (S i) rest
      end
  | tbody trs :: rest =>
      if existsb (existsb (td_has_id doc elementId)) trs then Some other_element
      else first_with_id doc elementId (S i) rest
  end.

(** [document.getElementById(id)]: the first element of the page with the
    id; it never matches the empty id. *)
Definition getElementById (doc : Document) (elementId : string)
    (children : list Node) : option Element :=
  if bool_decide (elementId = EmptyString) then None
  else if bool_decide (elementId ∈ ids_before_table doc) then Some other_element
  else match first_with_id doc elementId 0 children with
       | Some element => Some element
       | None =>
           if bool_decide (elementId ∈ ids_after_table doc) then Some other_element
           else None
       end.

(** ** The controller, its heap and the page *)

Record State := mkState {
  tableElement : list Node;
  header : list Column;
  columnIds : list string;
  originalData : loc;
  displayData : loc;
  selectedColumnId : string;
  heap : gmap loc (list Row);      (* the row arrays the references point to *)
  document : Document              (* the page around the table *)
}.

Definition set_tableElement (f : list Node → list Node) (st : State) : State :=
  mkState (f (tableElement st)) (header st) (columnIds st) (originalData st)
          (displayData st) (selectedColumnId st) (heap st) (document st).
Definition set_header (f : list Column → list Column) (st : State) : State :=
  mkState (tableElement st) (f (header st)) (columnIds st) (originalData st)
          (displayData st) (selectedColumnId st) (heap st) (document st).
Definition set_columnIds (f : list string → list string) (st : State) : State :=
  mkState (tableElement st) (header st) (f (columnIds st)) (originalData st)
          (displayData st) (selectedColumnId st) (heap st) (document st).
Definition set_originalData (data : loc) (st : State) : State :=
  mkState (tableElement st) (header st) (columnIds st) data
          (displayData st) (selectedColumnId st) (heap st) (document st).
Definition set_displayData (data : loc) (st : State) : State :=
  mkState (tableElement st) (header st) (columnIds st) (originalData st)
          data (selectedColumnId st) (heap st) (document st).
Definition set_selectedColumnId (columnId : string) (st : State) : State :=
  mkState (tableElement st) (header st) (columnIds st) (originalData st)
          (displayData st) columnId (heap st) (document st).
Definition set_heap (f : gmap loc (list Row) → gmap loc (list Row)) (st : State) : State :=
  mkState (tableElement st) (header st) (columnIds st) (originalData st)
          (displayData st) (selectedColumnId st) (f (heap st)) (document st).

(** The rows of the array at [data]. Every reference the program holds is
    allocated; the empty array only makes the function total. *)
Definition rows_at (data : loc) (st : State) : list Row :=
  default [] (heap st !! data).

Inductive Error :=
| TableElementNotFound               (* Error('Table element not found.') *)
| DataIdNotFound (columnId : string) (* Error(`data-id "${columnId}" is not found.`) *)
| SortTargetNotFound                 (* Error('sort target not found.') *)
| TypeError                          (* a property read on [undefined] *)
| SyntaxError.                       (* a selector the engine rejects *)

(** ** State and exceptions *)

Inductive Outcome (A : Type) :=
| Returns (a : A) (st : State)
| Throws (e : Error) (st : State).
Arguments Returns {A} a st.
Arguments Throws {A} e st.

Definition M (A : Type) : Type := State → Outcome A.

Definition state_of {A} (o : Outcome A) : State :=
  match o with
  | Returns _ st => st
  | Throws _ st => st
  end.

#[global] Instance M_ret : MRet M := λ A a st, Returns a st.
#[global] Instance M_bind : MBind M := λ A B k m st,
  match m st with
  | Returns a st' => k a st'
  | Throws e st' => Throws e st'
  end.

Definition throw {A} (e : Error) : M A := λ st, Throws e st.
Definition gets {A} (f : State → A) : M A := λ st, Returns (f st) st.
Definition modify (f : State → State) : M unit := λ st, Returns () (f st).

(** ** The methods of [SortableTable] *)

(** [constructor(selector)] on the page [doc]. [container] is what
    [document.querySelector] finds; the two fresh empty arrays are allocated
    in the heap [h]. *)
Definition new_SortableTable (doc : Document) (container : option (list Node))
    (h : gmap loc (list Row)) : Error + State :=
  match container with
  | None => inl TableElementNotFound
  | Some tableElement =>
      let originalData := fresh (dom h) in
      let h1 := <[originalData := []]> h in
      let displayData := fresh (dom h1) in
      inr (mkState tableElement [] [] originalData displayData EmptyString
                   (<[displayData := []]> h1) doc)
  end.

Definition render_th (column : Column) : Th :=
  mkTh (id column) (label column) (sortable column) (Some (id column)) [] 0.

Definition renderHeader : M unit :=
  hdr ← gets header;
  modify (set_tableElement (λ children, children ++ [thead (render_th <$> hdr)])).

(** When the element found is not a header cell of the table, the classes
    and the listener go to that element, of which the state keeps no record. *)
Definition setupEventListner : M unit :=
  hdr ← gets header;
  doc ← gets document;
  modify (set_tableElement (λ children,
    foldl (λ children column,
             match getElementById doc (id column) children with
             | None => children
             | Some other_element => children
             | Some (header_cell th) =>
                 if sortable column then
                   alter_th (λ el, th_with_classList (classList_add "sort")
                                     (th_addEventListener
                                        (th_with_classList (classList_add "sortable") el)))
                            th children
                 else children
             end) children hdr)).

Definition setHeader (header : option (list Column)) : M unit :=
  match header with
  | None => mret ()
  | Some header =>
      modify (set_header (λ _, header));;
      modify (set_columnIds (λ ids, ids ++ (id <$> header)));;
      renderHeader;;
      setupEventListner
  end.

(** One [td]; [None] when [row[key]] is [undefined]. *)
Definition render_td (row : Row) (key : string) : option Td :=
  cell ← row !! key;
  Some (match cellRenderer cell with
        | Some render => td_innerHTML (render (value cell))
        | None => td_innerText (value cell)
        end).

Definition render_tr (keys : list string) (row : Row) : option (list Td) :=
  mapM (render_td row) keys.

(** The [tbody] is appended once every row has been built. *)
Definition renderData (data : loc) : M unit :=
  rows ← gets (rows_at data);
  keys ← gets columnIds;
  match mapM (render_tr keys) rows with
  | None => throw TypeError
  | Some trs => modify (set_tableElement (λ children, children ++ [tbody trs]))
  end.

Definition setData (data : option loc) : M unit :=
  match data with
  | None => mret ()
  | Some data =>
      modify (set_originalData data);;
      modify (set_displayData data);;
      renderData data
  end.

Definition getTableData : M loc := gets displayData.

(** [this.originalData.sort(...)]: the array is reordered in place and the
    reference to it is returned. *)
Definition _sort (columnId : string) (direction : option SortDirection) : M loc :=
  let sign := sign_of direction in
  data ← gets originalData;
  rows ← gets (rows_at data);
  match Array_sort (compareFn columnId sign) rows with
  | None => throw TypeError
  | Some sorted => modify (set_heap <[data := sorted]>);; mret data
  end.

(** [Array.prototype.find] for a callback that may write to the element it
    visits: the elements visited, as the callback left them, and the index of
    the first one it accepted. *)
Fixpoint Array_find {A} (callback : A → A * bool) (l : list A) : list A * option nat :=
  match l with
  | [] => ([], None)
  | x :: l' =>
      let (x', accepted) := callback x in
      if accepted then (x' :: l', Some 0%nat)
      else let (l'', found) := Array_find callback l' in (x' :: l'', S <$> found)
  end.

Definition truthy (s : string) : bool := negb (String.eqb s EmptyString).

Definition with_id (columnId : string) (column : Column) : Column :=
  mkColumn columnId (label column) (sortable column) (sortDirection column).

Definition with_sortDirection (direction : SortDirection) (column : Column) : Column :=
  mkColumn (id column) (label column) (sortable column) (Some direction).

(** [this.header.find((column) => column.id = columnId)]: the callback
    assigns, and its result is the truthiness of the assigned string. The
    column found is returned as its index in [header]. *)
Definition getHeaderColmun (columnId : string) : M (option nat) :=
  hdr ← gets header;
  let (hdr', column) :=
    Array_find (λ column, (with_id columnId column, truthy columnId)) hdr in
  modify (set_header (λ _, hdr'));;
  mret column.

(** Both direction markers removed from every header cell. *)
Definition clear_marks : list Node → list Node :=
  map_th (th_with_classList
            (λ classes, classList_remove "sort-asc"
                          (classList_remove "sort-desc" classes))).

Definition clearSortDirection : M unit :=
  modify (set_tableElement clear_marks).

Definition getInversedSortDirection (direction : option SortDirection) : SortDirection :=
  match direction with
  | None => asc
  | Some desc => asc
  | Some asc => desc
  end.

Definition clearTableRow : M unit :=
  modify (set_tableElement remove_first_tbody).

(** [column.sortDirection], read through the reference [column]. *)
Definition column_sortDirection (column : nat) : M (option SortDirection) :=
  gets (λ st, header st !! column ≫= sortDirection).

Definition sort_class (direction : option SortDirection) : string :=
  match direction with
  | Some asc => "sort-asc"
  | Some desc => "sort-desc"
  | None => "sort-undefined"
  end.

Section Sort.
(** The selector engine applied to [[data-id="${columnId}"]]: [None] when
    the text is rejected, otherwise the test it makes on a header cell. *)
Variable data_id_selector : string → option (Th → bool).

Definition querySelector_data_id (columnId : string) : M (option ThRef) :=
  match data_id_selector columnId with
  | None => throw SyntaxError
  | Some matches => gets (λ st, first_th matches 0 (tableElement st))
  end.

Definition sort (columnId : string) : M unit :=
  colmunElement ← querySelector_data_id columnId;
  match colmunElement with
  | None => throw (DataIdNotFound columnId)
  | Some colmunElement =>
      column ← getHeaderColmun columnId;
      match column with
      | None => throw (DataIdNotFound columnId)
      | Some column =>
          clearSortDirection;;
          selected ← gets selectedColumnId;
          (if String.eqb selected columnId then
             previous ← column_sortDirection column;
             modify (set_header
                       (alter (with_sortDirection (getInversedSortDirection previous))
                              column))
           else
             modify (set_selectedColumnId columnId);;
             modify (set_header (alter (with_sortDirection asc) column)));;
          direction ← column_sortDirection column;
          modify (set_tableElement
                    (alter_th (th_with_classList (classList_add (sort_class direction)))
                              colmunElement));;
          clearTableRow;;
          sortedData ← _sort columnId direction;
          modify (set_displayData sortedData);;
          renderData sortedData
      end
  end.

(** [onSort(e)]: [currentTarget] is [e.currentTarget] as its [data-id]
    attribute, [None] when the event has no current target. *)
Definition onSort (currentTarget : option (option string)) : M unit :=
  match currentTarget with
  | None => throw SortTargetNotFound
  | Some attribute => sort (default EmptyString attribute)
  end.
End Sort.

(** A character that stands for itself inside the double-quoted string of a
    selector: any but NUL, the line breaks (LF, FF, CR), the double quote and
    the backslash. *)
Definition plain_char (c : ascii) : bool :=
  let n := N_of_ascii c in
  negb ((n =? 0) || (n =? 10) || (n =? 12) || (n =? 13) || (n =? 34) || (n =? 92))%N.

Fixpoint plain_id (s : string) : bool :=
  match s with
  | EmptyString => true
  | String c s' => plain_char c && plain_id s'
  end.

(** A selector engine for the example tables. For a column id made of such
    characters the text [[data-id="${columnId}"]] is a quoted string around
    the id: an exact match on the attribute. For any other id the id is
    pasted unescaped and the text has another shape (it may be no selector at
    all, or one that matches other cells); what a browser makes of it takes
    the whole selector grammar and is left out: this engine rejects it, no
    example uses such an id, and what holds for every id is proved for every
    engine. *)
Definition plain_selector (columnId : string) : option (Th → bool) :=
  if plain_id columnId
  then Some (λ th, bool_decide (th_data_id th = Some columnId))
  else None.

(** ** Vocabulary of the properties *)

(** The order a comparison function induces: [a] may stay before [b]. *)
Definition precedes {A} (comparefn : A → A → option Z) (a b : A) : Prop :=
  ∃ c, comparefn a b = Some c ∧ c ≤ 0.

(** The values of one column, row by row. *)
Definition cell_values (columnId : string) (rows : list Row) : list (option string) :=
  (λ row : Row, value <$> row !! columnId) <$> rows.

Definition has_value (columnId : string) (row : Row) (v : string) : Prop :=
  value <$> row !! columnId = Some v.

(** No two rows at different positions compare equal. *)
Definition no_ties (columnId : string) (rows : list Row) : Prop :=
  ∀ (i j : nat) a b, i ≠ j → rows !! i = Some a → rows !! j = Some b →
    compareFn columnId 1 a b ≠ Some 0.

(** The comparison callback is transitive on the rows of the dataset. *)
Definition consistent (columnId : string) (rows : list Row) : Prop :=
  ∀ a b c, a ∈ rows → b ∈ rows → c ∈ rows →
    precedes (compareFn columnId 1) a b → precedes (compareFn columnId 1) b c →
    precedes (compareFn columnId 1) a c.

(** Every row has the cell and its value matches the numeric pattern. *)
Definition numeric_column (columnId : string) (rows : list Row) : Prop :=
  ∀ row, row ∈ rows → ∃ v, has_value columnId row v ∧ canCastToNumber v = true.

Fixpoint all_commas (s : string) : bool :=
  match s with
  | EmptyString => true
  | String c s' => Ascii.eqb c "," && all_commas s'
  end.

(** A digit from 1 to 9 occurs in the string: a string of digits and commas
    with one denotes a positive number. *)
Fixpoint has_nonzero_digit (s : string) : bool :=
  match s with
  | EmptyString => false
  | String c s' =>
      ((49 <=? N_of_ascii c) && (N_of_ascii c <=? 57))%N || has_nonzero_digit s'
  end.

(** The direction the next [sort(columnId)] applies, read off the state. *)
Definition next_direction (columnId : string) (st : State) : SortDirection :=
  if String.eqb (selectedColumnId st) columnId
  then getInversedSortDirection (head (header st) ≫= sortDirection)
  else asc.

(** The state in which [sort(columnId)] calls [_sort], once the header cell
    [colmunElement] and a column have been found: the first column carries
    the requested id and the direction, the cell is marked, the body is gone. *)
Definition decided (columnId : string) (colmunElement : ThRef) (st : State) : State :=
  let direction := next_direction columnId st in
  mkState
    (remove_first_tbody
       (alter_th (th_with_classList (classList_add (sort_class (Some direction))))
                 colmunElement (clear_marks (tableElement st))))
    (match header st with
     | [] => []
     | column :: rest => with_sortDirection direction (with_id columnId column) :: rest
     end)
    (columnIds st) (originalData st) (displayData st) columnId (heap st)
    (document st).

(** The callback as a function of the two cell values. *)
Definition compareValues (sign : Z) (valA valB : string) : Z :=
  let vals :=
    if canCastToNumber valA && canCastToNumber valB
    then Numbers (Number (removeCommas valA)) (Number (removeCommas valB))
    else Strings valA valB in
  if js_lt vals then sign * -1 else if js_gt vals then sign else 0.

(** Pure lexicographic comparison of the two cell values, whatever they look
    like: the ordering the mixed-column example of the specification names. *)
Definition lexicographicFn (columnId : string) (sign : Z) (a b : Row) : option Z :=
  cellA ← a !! columnId;
  cellB ← b !! columnId;
  Some (if String.ltb (value cellA) (value cellB) then sign * -1
        else if String.ltb (value cellB) (value cellA) then sign
        else 0).

(** ** Example tables *)

(** The caller's arrays: a dataset at reference 0, an empty one at 1. *)
Definition caller_heap (rows : list Row) : gmap loc (list Row) :=
  {[ 0%nat := rows; 1%nat := [] ]}.

(** A page on which the header cells of the table are the only elements
    with an id. *)
Definition bare_page : Document := mkDocument [] [] (λ _, []).

(** A controller just constructed on an empty table element of that page. *)
Definition fresh_table (rows : list Row) : State :=
  mkState [] [] [] 2%nat 3%nat EmptyString
          (<[3%nat := []]> (<[2%nat := []]> (caller_heap rows))) bare_page.

(** ... then given a header and the dataset. *)
Definition loaded_table (columns : list Column) (rows : list Row) : State :=
  state_of ((setHeader (Some columns);; setData (Some 0%nat)) (fresh_table rows)).

Definition plain (v : string) : Cell := mkCell v None.

Definition column_c : list Column := [mkColumn "c" "C" true None].

(** The same column with its direction preset, as the type of a column
    asks. *)
Definition column_c_desc : list Column := [mkColumn "c" "C" true (Some desc)].

Definition mixed_rows : list Row :=
  [ {[ "c" := plain "10" ]}; {[ "c" := plain "abc" ]}; {[ "c" := plain "2" ]} ].

Definition numeric_rows : list Row :=
  [ {[ "c" := plain "10" ]}; {[ "c" := plain "2" ]}; {[ "c" := plain "1,000" ]} ].

(** A value made of commas among numbers. *)
Definition comma_rows : list Row :=
  [ {[ "c" := plain "1,000" ]}; {[ "c" := plain "," ]}; {[ "c" := plain "2" ]} ].

(** A value made of commas, a positive number, and a value that is not a
    number between them. *)
Definition stray_rows : list Row :=
  [ {[ "c" := plain "0,1" ]}; {[ "c" := plain "0-" ]}; {[ "c" := plain "00" ]};
    {[ "c" := plain "," ]} ].

(** Two distinct strings that denote the same number. *)
Definition tied_rows : list Row :=
  [ {[ "c" := plain "10" ]}; {[ "c" := plain "1,0" ]} ].

Definition person (name age city : string) : Row :=
  {[ "name" := plain name; "age" := plain age; "city" := plain city ]}.

Definition people : list Row :=
  [ person "Bob" "30" "Oslo"; person "Ann" "5" "Rome" ].

Definition name_age : list Column :=
  [mkColumn "name" "Name" true None; mkColumn "age" "Age" true None].

Definition city_only : list Column := [mkColumn "city" "City" true None].

(** [setHeader] called a second time: the header is now the [city] column
    alone, and the header cells of the first call are still in the table. *)
Definition replaced_header_table : State :=
  state_of ((setHeader (Some name_age);; setHeader (Some city_only);;
             setData (Some 0%nat)) (fresh_table people)).

(** The [name]/[age] table after one click on the [age] header cell, and
    after a second one. *)
Definition age_sorted_once : State :=
  state_of (sort plain_selector "age" (loaded_table name_age people)).

Definition age_sorted_twice : State :=
  state_of (sort plain_selector "age" age_sorted_once).

(** ** Vocabulary for the table and its rendering *)

(** No value of the column matches the numeric pattern. *)
Definition textual_column (columnId : string) (rows : list Row) : Prop :=
  ∀ row, row ∈ rows → ∃ v, has_value columnId row v ∧ canCastToNumber v = false.

(** [querySelectorAll('th')]: the header cells in document order. *)
Fixpoint all_th (children : list Node) : list Th :=
  match children with
  | [] => []
  | thead tr :: rest => tr ++ all_th rest
  | tbody _ :: rest => all_th rest
  end.

(** A header cell apart from its class list and its listeners: id, text,
    [sortable] attribute and [data-id] attribute. *)
Definition th_cell (th : Th) : string * string * bool * option string :=
  (th_id th, th_innerText th, th_sortable th, th_data_id th).

(** The cell [renderHeader] creates for a column. *)
Definition column_cell (column : Column) : string * string * bool * option string :=
  (id column, label column, sortable column, Some (id column)).

(** A child of the table apart from the class lists and listeners of its
    header cells. *)
Definition node_cells (node : Node)
    : list (string * string * bool * option string) + list (list Td) :=
  match node with
  | thead tr => inl (th_cell <$> tr)
  | tbody trs => inr trs
  end.

(** The bodies of the table, in document order. *)
Fixpoint all_tbody (children : list Node) : list (list (list Td)) :=
  match children with
  | [] => []
  | thead _ :: rest => all_tbody rest
  | tbody trs :: rest => trs :: all_tbody rest
  end.

(** All click listeners installed on header cells of the table. *)
Definition click_listeners (children : list Node) : nat :=
  sum_list_with th_clickListeners (all_th children).

(** The content [renderData] gives the cell of [row] under [key]. *)
Definition td_of (cell : Cell) : Td :=
  match cellRenderer cell with
  | Some render => td_innerHTML (render (value cell))
  | None => td_innerText (value cell)
  end.

(** What [setupEventListner] does to one header cell. *)
Definition make_sortable (th : Th) : Th :=
  th_with_classList (classList_add "sort")
    (th_addEventListener (th_with_classList (classList_add "sortable") th)).

(** One turn of the loop of [setupEventListner]. *)
Definition install_listener (doc : Document) (children : list Node) (column : Column)
    : list Node :=
  match getElementById doc (id column) children with
  | None => children
  | Some other_element => children
  | Some (header_cell th) =>
      if sortable column then alter_th make_sortable th children else children
  end.

(** An element that is not a header cell carries the id and may come before
    the header cells that do: it stands before the table, or in the markup of
    a body cell. *)
Definition id_taken_elsewhere (elementId : string) (st : State) : bool :=
  bool_decide (elementId ∈ ids_before_table (document st))
  || existsb (existsb (existsb (td_has_id (document st) elementId)))
             (all_tbody (tableElement st)).

(** The listener of the column is certain to land in the header of the
    table: the id is carried by a header cell and by no element that may come
    before it. *)
Definition lands_in_header (doc : Document) (children : list Node) (column : Column)
    : Prop :=
  (id column ∉ ids_before_table doc)
  ∧ existsb (existsb (existsb (td_has_id doc (id column)))) (all_tbody children) = false
  ∧ id column ∈ th_id <$> all_th children.

(** The columns [setupEventListner] can give a listener: sortable, with an id
    [getElementById] can look up. *)
Definition listener_columns (columns : list Column) : list Column :=
  filter (λ column, sortable column = true ∧ id column ≠ EmptyString) columns.

(** * Properties *)

(** ** The comparison callback *)

Lemma String_ltb_asym (a b : string) : String.ltb a b = true → String.ltb b a = false.
Proof.
  unfold String.ltb. rewrite (String.compare_antisym a b).
  by destruct (String.compare b a).
Qed.

Lemma number_ltb_asym (a b : number) : number_ltb a b = true → number_ltb b a = false.
Proof.
  destruct a as [|x|], b as [|y|]; simpl; try done.
  intros H%N.ltb_lt. apply N.ltb_ge. lia.
Qed.

Lemma js_lt_not_gt (o : Operands) : js_lt o = true → js_gt o = false.
Proof. destruct o; simpl; auto using String_ltb_asym, number_ltb_asym. Qed.

Lemma cell_value_own (columnId : string) (row : Row) (cell : Cell) :
  row !! columnId = Some cell → cell_value columnId row = Some (Some (value cell)).
Proof. unfold cell_value. by intros ->. Qed.

Lemma cell_value_is_Some (columnId : string) (row : Row) :
  is_Some (cell_value columnId row)
  ↔ columnId ∈ Object_prototype ∨ is_Some (row !! columnId).
Proof.
  unfold cell_value. destruct (row !! columnId) as [cell|].
  - split; eauto.
  - case_bool_decide as Hin.
    + split; eauto.
    + split; [by intros [? [=]]|]. by intros [?|[? [=]]].
Qed.

(** The callback on two rows that have the cell. *)
Lemma compareFn_cells (columnId : string) (sign : Z) (a b : Row) (cellA cellB : Cell) :
  a !! columnId = Some cellA → b !! columnId = Some cellB →
  compareFn columnId sign a b = Some (compareValues sign (value cellA) (value cellB)).
Proof.
  intros Ha Hb. unfold compareFn.
  by rewrite (cell_value_own _ _ _ Ha), (cell_value_own _ _ _ Hb).
Qed.

Lemma compareFn_values (columnId : string) (sign : Z) (a b : Row) (valA valB : string) :
  has_value columnId a valA → has_value columnId b valB →
  compareFn columnId sign a b = Some (compareValues sign valA valB).
Proof.
  unfold has_value. intros Ha Hb.
  destruct (a !! columnId) as [ca|] eqn:Ea; [|done].
  destruct (b !! columnId) as [cb|] eqn:Eb; [|done].
  injection Ha as <-. injection Hb as <-. by apply compareFn_cells.
Qed.


Lemma compareFn_is_Some (columnId : string) (sign : Z) (a b : Row) :
  is_Some (a !! columnId) → is_Some (b !! columnId) →
  is_Some (compareFn columnId sign a b).
Proof. intros [ca Ha] [cb Hb]. rewrite (compareFn_cells _ _ _ _ _ _ Ha Hb). eauto. Qed.

(** The callback returns unless it reads a cell that is neither in the row
    nor inherited. *)
Lemma compareFn_is_Some_iff (columnId : string) (sign : Z) (a b : Row) :
  is_Some (compareFn columnId sign a b)
  ↔ columnId ∈ Object_prototype ∨ (is_Some (a !! columnId) ∧ is_Some (b !! columnId)).
Proof.
  assert (is_Some (compareFn columnId sign a b)
          ↔ is_Some (cell_value columnId a) ∧ is_Some (cell_value columnId b)) as ->.
  { unfold compareFn.
    destruct (cell_value columnId a) as [va|], (cell_value columnId b) as [vb|]; simpl.
    - split; eauto.
    - split; [by intros [? [=]]|by intros [_ [? [=]]]].
    - split; [by intros [? [=]]|by intros [[? [=]] _]].
    - split; [by intros [? [=]]|by intros [[? [=]] _]]. }
  rewrite !cell_value_is_Some. tauto.
Qed.

(** With an [undefined] operand the callback answers 0. *)
Lemma compareFn_undefined (columnId : string) (sign : Z) (a b : Row) :
  columnId ∈ Object_prototype →
  a !! columnId = None ∨ b !! columnId = None →
  compareFn columnId sign a b = Some 0.
Proof.
  intros Hin Hnone. unfold compareFn, cell_value.
  rewrite bool_decide_eq_true_2 by done.
  destruct Hnone as [-> | ->]; [by destruct (b !! columnId)|by destruct (a !! columnId)].
Qed.

(** Swapping the arguments negates the result. *)
Lemma compareFn_swap (columnId : string) (sign : Z) (a b : Row) :
  compareFn columnId sign b a = Z.opp <$> compareFn columnId sign a b.
Proof.
  unfold compareFn, cell_value.
  destruct (a !! columnId) as [ca|], (b !! columnId) as [cb|];
    try case_bool_decide; cbn -[String.ltb number_ltb]; try done.
  f_equal. rewrite (andb_comm (canCastToNumber (value cb))).
  destruct (canCastToNumber (value ca) && canCastToNumber (value cb));
    cbn -[String.ltb number_ltb].
  - destruct (number_ltb (Number (removeCommas (value ca)))
                         (Number (removeCommas (value cb)))) eqn:Hlt.
    + rewrite (number_ltb_asym _ _ Hlt). lia.
    + destruct (number_ltb (Number (removeCommas (value cb))) _); lia.
  - destruct (String.ltb (value ca) (value cb)) eqn:Hlt.
    + rewrite (String_ltb_asym _ _ Hlt). lia.
    + destruct (String.ltb (value cb) _); lia.
Qed.

(** Descending is the negation of ascending. *)
Lemma compareFn_descending (columnId : string) (a b : Row) :
  compareFn columnId (-1) a b = Z.opp <$> compareFn columnId 1 a b.
Proof.
  unfold compareFn, cell_value.
  destruct (a !! columnId) as [ca|], (b !! columnId) as [cb|];
    try case_bool_decide; simpl; try done.
  f_equal. repeat case_match; lia.
Qed.

Lemma compareFn_refl (columnId : string) (sign : Z) (a : Row) (c : Z) :
  compareFn columnId sign a a = Some c → c = 0.
Proof.
  intros H. pose proof (compareFn_swap columnId sign a a) as Hs.
  rewrite H in Hs. simpl in Hs. injection Hs. lia.
Qed.

Lemma precedes_swap (columnId : string) (sign : Z) (a b : Row) (c : Z) :
  compareFn columnId sign a b = Some c → 0 < c →
  precedes (compareFn columnId sign) b a.
Proof.
  intros Hc Hpos. exists (- c). rewrite compareFn_swap, Hc. split; [done|lia].
Qed.

Lemma precedes_descending (columnId : string) (a b : Row) :
  precedes (compareFn columnId (-1)) a b ↔ precedes (compareFn columnId 1) b a.
Proof.
  unfold precedes. rewrite compareFn_descending, (compareFn_swap columnId 1 b a).
  destruct (compareFn columnId 1 b a) as [c|]; simpl.
  - split; intros (c' & [= <-] & Hle); eexists; (split; [done|lia]).
  - split; intros (c' & [=] & _).
Qed.

(** Rows that precede each other compare equal. *)
Lemma precedes_both_ways (columnId : string) (a b : Row) :
  precedes (compareFn columnId 1) a b → precedes (compareFn columnId 1) b a →
  compareFn columnId 1 a b = Some 0.
Proof.
  intros (c1 & Hc1 & Hle1) (c2 & Hc2 & Hle2).
  rewrite compareFn_swap, Hc1 in Hc2. injection Hc2 as <-.
  rewrite Hc1. f_equal. lia.
Qed.

Lemma has_value_singleton (columnId v : string) (render : option (string → string)) :
  has_value columnId {[ columnId := mkCell v render ]} v.
Proof. unfold has_value. by rewrite lookup_singleton_eq. Qed.

Lemma has_value_is_Some (columnId : string) (row : Row) (v : string) :
  has_value columnId row v → is_Some (row !! columnId).
Proof. unfold has_value. destruct (row !! columnId); [eauto|done]. Qed.

Lemma cell_values_cons (columnId : string) (row : Row) (v : string) (rows : list Row) :
  has_value columnId row v →
  cell_values columnId (row :: rows) = Some v :: cell_values columnId rows.
Proof. unfold cell_values, has_value. simpl. by intros ->. Qed.

(** ** [Array.prototype.sort] *)

Section ArraySortFacts.
Context {A : Type} (comparefn : A → A → option Z).

Lemma insert_sorted_Permutation (x : A) (l l' : list A) :
  insert_sorted comparefn x l = Some l' → l' ≡ₚ x :: l.
Proof.
  revert l'. induction l as [|y l IH]; intros l' H; simpl in H.
  - by injection H as <-.
  - destruct (comparefn x y) as [c|]; [simpl in H|done].
    destruct (c <=? 0).
    + by injection H as <-.
    + destruct (insert_sorted comparefn x l) as [l''|]; [|done].
      injection H as <-. rewrite (IH l'' eq_refl). apply Permutation_swap.
Qed.

Lemma Array_sort_Permutation (l l' : list A) :
  Array_sort comparefn l = Some l' → l' ≡ₚ l.
Proof.
  revert l'. induction l as [|x l IH]; intros l' H; simpl in H.
  - by injection H as <-.
  - destruct (Array_sort comparefn l) as [s|]; [simpl in H|done].
    rewrite (insert_sorted_Permutation _ _ _ H). by rewrite (IH s eq_refl).
Qed.

(** The sort completes when no comparison can throw. *)
Lemma insert_sorted_is_Some (P : A → Prop) (x : A) (l : list A) :
  (∀ a b, P a → P b → is_Some (comparefn a b)) →
  P x → Forall P l → is_Some (insert_sorted comparefn x l).
Proof.
  intros Hcmp Hx. induction 1 as [|y l Hy Hl IH]; simpl; [eauto|].
  destruct (Hcmp x y Hx Hy) as [c ->]. simpl.
  destruct (c <=? 0); [eauto|]. destruct IH as [l' ->]. simpl. eauto.
Qed.

Lemma Array_sort_is_Some (P : A → Prop) (l : list A) :
  (∀ a b, P a → P b → is_Some (comparefn a b)) →
  Forall P l → is_Some (Array_sort comparefn l).
Proof.
  intros Hcmp. induction 1 as [|x l Hx Hl IH]; simpl; [eauto|].
  destruct IH as [s Hs]. rewrite Hs. simpl.
  apply (insert_sorted_is_Some P); [done..|].
  apply Array_sort_Permutation in Hs. by rewrite Hs.
Qed.

(** On a set [P] of elements where the comparison function is consistent
    (a positive result one way means the other way is allowed, and the
    induced order is transitive), the result is sorted. *)
Section Sorted.
Context (P : A → Prop).
Hypothesis flip_positive :
  ∀ a b c, P a → P b → comparefn a b = Some c → 0 < c → precedes comparefn b a.
Hypothesis transitive :
  ∀ a b c, P a → P b → P c →
    precedes comparefn a b → precedes comparefn b c → precedes comparefn a c.

Lemma insert_sorted_StronglySorted (x : A) (l l' : list A) :
  P x → Forall P l → StronglySorted (precedes comparefn) l →
  insert_sorted comparefn x l = Some l' →
  StronglySorted (precedes comparefn) l'.
Proof.
  intros Hx HP Hs. revert l'.
  induction Hs as [|y l Hs IH Hy]; intros l' H; simpl in H.
  - injection H as <-. repeat constructor.
  - apply Forall_cons in HP as [HPy HPl].
    destruct (comparefn x y) as [c|] eqn:Hc; [simpl in H|done].
    destruct (Z.leb_spec c 0) as [Hle|Hgt].
    + injection H as <-. constructor; [by constructor|].
      assert (precedes comparefn x y) as Hxy by (exists c; done).
      constructor; [done|].
      rewrite Forall_forall in Hy, HPl |- *. intros z Hz.
      apply (transitive x y z); auto.
    + destruct (insert_sorted comparefn x l) as [l''|] eqn:Hins; [|done].
      injection H as <-. constructor; [by apply IH|].
      rewrite (insert_sorted_Permutation _ _ _ Hins).
      constructor; [|done]. by apply (flip_positive x y c).
Qed.

Lemma Array_sort_StronglySorted (l l' : list A) :
  Forall P l → Array_sort comparefn l = Some l' →
  StronglySorted (precedes comparefn) l'.
Proof.
  intros HP. revert l'. induction HP as [|x l Hx Hl IH]; intros l' H; simpl in H.
  - injection H as <-. constructor.
  - destruct (Array_sort comparefn l) as [s|] eqn:Hs; [simpl in H|done].
    apply (insert_sorted_StronglySorted x s); [done| |by apply IH|done].
    apply Array_sort_Permutation in Hs. by rewrite Hs.
Qed.
End Sorted.
End ArraySortFacts.

(** Sorting three rows, given the three comparisons the insertion sort makes. *)
Lemma Array_sort_three {A} (comparefn : A → A → option Z) (x y z : A) (cyz cxy cxz : Z) :
  comparefn y z = Some cyz → comparefn x y = Some cxy → comparefn x z = Some cxz →
  Array_sort comparefn [x; y; z] =
    Some (if cyz <=? 0
          then (if cxy <=? 0 then [x; y; z]
                else if cxz <=? 0 then [y; x; z] else [y; z; x])
          else (if cxz <=? 0 then [x; z; y]
                else if cxy <=? 0 then [z; x; y] else [z; y; x])).
Proof.
  intros Hyz Hxy Hxz. cbn [Array_sort insert_sorted mbind option_bind].
  rewrite Hyz. cbn [mbind option_bind].
  destruct (cyz <=? 0); cbn [insert_sorted fmap option_fmap option_map mbind option_bind].
  - rewrite Hxy. cbn [mbind option_bind]. destruct (cxy <=? 0); [done|].
    cbn [insert_sorted fmap option_fmap option_map mbind option_bind].
    rewrite Hxz. cbn [mbind option_bind]. by destruct (cxz <=? 0).
  - rewrite Hxz. cbn [mbind option_bind]. destruct (cxz <=? 0); [done|].
    cbn [insert_sorted fmap option_fmap option_map mbind option_bind].
    rewrite Hxy. cbn [mbind option_bind]. by destruct (cxy <=? 0).
Qed.

Lemma StronglySorted_reverse {A} (R : relation A) (l : list A) :
  StronglySorted R l → StronglySorted (flip R) (reverse l).
Proof.
  induction 1 as [|x l Hs IH Hx]; [constructor|].
  rewrite reverse_cons. apply StronglySorted_app_2; [|done|repeat constructor].
  intros y z Hy Hz. apply list_elem_of_singleton in Hz as ->.
  rewrite Forall_forall in Hx. apply Hx. by apply elem_of_reverse.
Qed.

Lemma StronglySorted_weaken {A} (R1 R2 : relation A) (l : list A) :
  (∀ x y, x ∈ l → y ∈ l → R1 x y → R2 x y) →
  StronglySorted R1 l → StronglySorted R2 l.
Proof.
  intros HR Hs. induction Hs as [|x l Hs IH Hx]; constructor.
  - apply IH. intros y z Hy Hz. apply HR; by constructor.
  - rewrite Forall_forall in Hx |- *. intros y Hy.
    apply HR; [by constructor|by constructor|by apply Hx].
Qed.

Lemma StronglySorted_lookup {A} (R : relation A) (l : list A) (i j : nat) (x y : A) :
  StronglySorted R l → (i < j)%nat → l !! i = Some x → l !! j = Some y → R x y.
Proof.
  intros Hs. revert i j. induction Hs as [|z l Hs IH Hz]; intros i j Hij Hi Hj; [done|].
  destruct j as [|j]; [lia|]. simpl in Hj. destruct i as [|i].
  - injection Hi as ->. rewrite Forall_forall in Hz. apply Hz.
    by apply list_elem_of_lookup_2 with j.
  - simpl in Hi. apply (IH i j); [lia|done..].
Qed.

Lemma no_ties_equal (columnId : string) (rows : list Row) (a b : Row) :
  no_ties columnId rows → a ∈ rows → b ∈ rows →
  compareFn columnId 1 a b = Some 0 → a = b.
Proof.
  intros Hties [i Hi]%list_elem_of_lookup [j Hj]%list_elem_of_lookup Hc.
  destruct (decide (i = j)) as [->|Hij]; [congruence|].
  by destruct (Hties i j a b Hij Hi Hj).
Qed.

Lemma no_ties_pair (columnId : string) (a b : Row) :
  compareFn columnId 1 a b ≠ Some 0 → no_ties columnId [a; b].
Proof.
  intros Hab [|[|i]] [|[|j]] x y Hij Hx Hy; simplify_eq/=; try done.
  rewrite compareFn_swap. destruct (compareFn columnId 1 _ _) as [c|]; [|done].
  simpl. intros [= Hc]. apply Hab. f_equal. lia.
Qed.

(** Three rows in strictly increasing order have no other sorted
    arrangement, whatever the sorting algorithm. *)
Lemma sorted_three_unique (columnId : string) (x y z : Row) :
  compareFn columnId 1 x y = Some (-1) →
  compareFn columnId 1 y z = Some (-1) →
  compareFn columnId 1 x z = Some (-1) →
  ∀ arranged, arranged ≡ₚ [x; y; z] →
    StronglySorted (precedes (compareFn columnId 1)) arranged →
    arranged = [x; y; z].
Proof.
  intros Hxy Hyz Hxz arranged Hperm Hsorted.
  pose proof (compareFn_swap columnId 1 x y) as Hyx. rewrite Hxy in Hyx.
  pose proof (compareFn_swap columnId 1 y z) as Hzy. rewrite Hyz in Hzy.
  pose proof (compareFn_swap columnId 1 x z) as Hzx. rewrite Hxz in Hzx.
  change (Z.opp <$> Some (-1)) with (Some 1) in Hyx, Hzy, Hzx.
  apply (StronglySorted_unique_strong (precedes (compareFn columnId 1))); [|done| |done].
  - intros x1 x2 Hx1 Hx2 H12 H21. rewrite Hperm in Hx1.
    pose proof (precedes_both_ways _ _ _ H12 H21) as Htie.
    repeat (apply elem_of_cons in Hx1 as [->|Hx1]);
      try (by apply elem_of_nil in Hx1);
      repeat (apply elem_of_cons in Hx2 as [->|Hx2]);
      try (by apply elem_of_nil in Hx2);
      try done; congruence.
  - repeat constructor; eexists; (split; [eassumption|lia]).
Qed.

(** Sorting ascending and then descending reverses the rows, when the
    callback orders them strictly and consistently. *)
Lemma Array_sort_toggle (columnId : string) (rows ascending descending : list Row) :
  Array_sort (compareFn columnId 1) rows = Some ascending →
  Array_sort (compareFn columnId (-1)) ascending = Some descending →
  no_ties columnId ascending → consistent columnId ascending →
  descending = reverse ascending.
Proof.
  intros Hasc Hdesc Hties Hcons.
  pose proof (Array_sort_Permutation _ _ _ Hasc) as Hperm.
  pose proof (Array_sort_Permutation _ _ _ Hdesc) as Hperm'.
  assert (StronglySorted (precedes (compareFn columnId 1)) ascending) as Hs.
  { apply (Array_sort_StronglySorted _ (λ row, row ∈ ascending)) with rows; [| | |done].
    - intros a b c _ _. apply precedes_swap.
    - apply Hcons.
    - apply Forall_forall. intros row Hrow. by rewrite Hperm. }
  assert (StronglySorted (precedes (compareFn columnId (-1))) descending) as Hs'.
  { apply (Array_sort_StronglySorted _ (λ row, row ∈ ascending)) with ascending;
      [| | |done].
    - intros a b c _ _. apply precedes_swap.
    - intros a b c Ha Hb Hc. rewrite !precedes_descending. eauto.
    - by apply Forall_forall. }
  apply (StronglySorted_unique_strong (flip (precedes (compareFn columnId 1)))).
  - intros x1 x2 Hx1 Hx2 H21 H12. unfold flip in *.
    rewrite Hperm' in Hx1. rewrite elem_of_reverse in Hx2.
    apply (no_ties_equal columnId ascending); [done..|].
    by apply precedes_both_ways.
  - apply (StronglySorted_weaken (precedes (compareFn columnId (-1)))); [|done].
    intros x y _ _. by rewrite precedes_descending.
  - by apply StronglySorted_reverse.
  - by rewrite Hperm', reverse_Permutation.
Qed.

Lemma consistent_direction (columnId : string) (direction : option SortDirection)
    (rows : list Row) :
  consistent columnId rows →
  ∀ a b c, a ∈ rows → b ∈ rows → c ∈ rows →
    precedes (compareFn columnId (sign_of direction)) a b →
    precedes (compareFn columnId (sign_of direction)) b c →
    precedes (compareFn columnId (sign_of direction)) a c.
Proof.
  intros Hcons a b c Ha Hb Hc. destruct direction as [[|]|]; simpl.
  - by apply Hcons.
  - rewrite !precedes_descending. eauto.
  - rewrite !precedes_descending. eauto.
Qed.

(** Where the callback is transitive on the rows, the rows a completed sort
    leaves are in order for the direction. *)
Lemma Array_sort_consistent (columnId : string) (direction : option SortDirection)
    (rows sorted : list Row) :
  Array_sort (compareFn columnId (sign_of direction)) rows = Some sorted →
  consistent columnId rows →
  StronglySorted (precedes (compareFn columnId (sign_of direction))) sorted.
Proof.
  intros Hs Hcons.
  apply (Array_sort_StronglySorted _ (λ row, row ∈ rows)) with rows; [| | |done].
  - intros a b c _ _. apply precedes_swap.
  - by apply consistent_direction.
  - by apply Forall_forall.
Qed.

Lemma consistent_Permutation (columnId : string) (rows rows' : list Row) :
  rows' ≡ₚ rows → consistent columnId rows → consistent columnId rows'.
Proof.
  intros Hperm Hcons a b c Ha Hb Hc. rewrite Hperm in Ha, Hb, Hc. by apply Hcons.
Qed.

(** ** Values made of commas, and numeric columns *)

Lemma all_commas_canCastToNumber (s : string) :
  s ≠ EmptyString → all_commas s = true → canCastToNumber s = true.
Proof.
  destruct s as [|c s]; [done|]. intros _. unfold canCastToNumber.
  generalize (String c s). clear. intros s. induction s as [|c s IH]; [done|].
  simpl. intros [Hc Hs]%andb_prop. apply Ascii.eqb_eq in Hc as ->.
  by rewrite (IH Hs).
Qed.

Lemma all_commas_removeCommas (s : string) :
  all_commas s = true → removeCommas s = EmptyString.
Proof.
  induction s as [|c s IH]; [done|]. simpl. intros [Hc Hs]%andb_prop.
  rewrite Hc. by apply IH.
Qed.

Lemma round_to_double_not_NaN (n : N) : round_to_double n ≠ NaN.
Proof. unfold round_to_double. by repeat case_match. Qed.

Lemma digits_value_removeCommas (s : string) (acc : N) :
  all_digit_or_comma s = true → is_Some (digits_value acc (removeCommas s)).
Proof.
  revert acc. induction s as [|c s IH]; intros acc; [by eexists|].
  simpl. intros [Hc Hs]%andb_prop. unfold digit_or_comma in Hc.
  destruct (Ascii.eqb c ",") eqn:Hcomma; [by apply IH|].
  simpl. destruct (digit c) as [d|]; [by apply IH|done].
Qed.

Lemma Number_removeCommas_not_NaN (v : string) :
  canCastToNumber v = true → Number (removeCommas v) ≠ NaN.
Proof.
  intros Hv. assert (all_digit_or_comma v = true) as Hall by (by destruct v).
  unfold Number. destruct (digits_value_removeCommas v 0 Hall) as [n ->].
  apply round_to_double_not_NaN.
Qed.

Lemma number_ltb_false_trans (a b c : number) :
  a ≠ NaN → b ≠ NaN → c ≠ NaN →
  number_ltb b a = false → number_ltb c b = false → number_ltb c a = false.
Proof.
  destruct a as [|x|], b as [|y|], c as [|z|]; simpl; try done.
  intros _ _ _ H1%N.ltb_ge H2%N.ltb_ge. apply N.ltb_ge. lia.
Qed.

Lemma compareValues_numeric (valA valB : string) :
  canCastToNumber valA = true → canCastToNumber valB = true →
  compareValues 1 valA valB ≤ 0
  ↔ number_ltb (Number (removeCommas valB)) (Number (removeCommas valA)) = false.
Proof.
  intros Ha Hb. unfold compareValues. rewrite Ha, Hb. cbn -[number_ltb Number].
  destruct (number_ltb (Number (removeCommas valA)) _) eqn:Hlt.
  - rewrite (number_ltb_asym _ _ Hlt). split; [done|lia].
  - destruct (number_ltb (Number (removeCommas valB)) _); split; (done || lia).
Qed.

Lemma numeric_column_consistent (columnId : string) (rows : list Row) :
  numeric_column columnId rows → consistent columnId rows.
Proof.
  intros Hnum a b c Ha Hb Hc.
  destruct (Hnum a Ha) as (va & Hva & Hna), (Hnum b Hb) as (vb & Hvb & Hnb),
    (Hnum c Hc) as (vc & Hvc & Hnc).
  unfold precedes.
  rewrite (compareFn_values _ _ _ _ _ _ Hva Hvb), (compareFn_values _ _ _ _ _ _ Hvb Hvc),
    (compareFn_values _ _ _ _ _ _ Hva Hvc).
  intros (z1 & [= <-] & H1) (z2 & [= <-] & H2). eexists. split; [done|].
  apply compareValues_numeric in H1, H2; try done.
  apply compareValues_numeric; try done.
  apply (number_ltb_false_trans _ (Number (removeCommas vb)));
    auto using Number_removeCommas_not_NaN.
Qed.

(** On two cell values: commas only against a positive number. *)
Lemma compareValues_commas_positive (s v : string) :
  s ≠ EmptyString → all_commas s = true → canCastToNumber v = true →
  number_ltb (Finite 0) (Number (removeCommas v)) = true →
  compareValues 1 s v = -1 ∧ compareValues 1 v s = 1.
Proof.
  intros Hne Hs Hv Hpos. unfold compareValues.
  rewrite (all_commas_canCastToNumber s Hne Hs), Hv, (all_commas_removeCommas s Hs).
  change (Number EmptyString) with (Finite 0). cbn -[number_ltb Number].
  by rewrite Hpos, (number_ltb_asym _ _ Hpos).
Qed.

Lemma digits_value_positive (s : string) (acc : N) :
  all_digit_or_comma s = true →
  ∃ n, digits_value acc (removeCommas s) = Some n
       ∧ (acc ≤ n)%N
       ∧ (has_nonzero_digit s = true → (0 < n)%N).
Proof.
  revert acc. induction s as [|c s IH]; intros acc.
  { intros _. exists acc. split; [done|]. split; [lia|done]. }
  simpl. intros [Hc Hs]%andb_prop. unfold digit_or_comma in Hc.
  destruct (Ascii.eqb c ",") eqn:Hcomma.
  - destruct (IH acc Hs) as (n & Hn & Hle & Hpos). exists n.
    split; [done|]. split; [done|]. apply Ascii.eqb_eq in Hcomma as ->. exact Hpos.
  - simpl. unfold digit in *.
    destruct ((48 <=? N_of_ascii c) && (N_of_ascii c <=? 57))%N eqn:Hd; [|done].
    apply andb_prop in Hd as [Hlo%N.leb_le Hhi%N.leb_le].
    destruct (IH (acc * 10 + (N_of_ascii c - 48))%N Hs) as (n & Hn & Hle & Hpos).
    exists n. split; [done|]. split; [lia|].
    intros [Hnz|Hrest]%orb_prop; [|by apply Hpos].
    apply andb_prop in Hnz as [Hnz%N.leb_le _]. lia.
Qed.

Lemma round_to_double_positive (n : N) :
  (0 < n)%N → number_ltb (Finite 0) (round_to_double n) = true.
Proof.
  intros Hn. unfold round_to_double.
  destruct (N.ltb_spec n (2 ^ 53)) as [_|_]; [by apply N.ltb_lt|].
  set (e := (N.log2 n - 52)%N).
  assert (1 ≤ 2 ^ e)%N as He by (apply N.lt_pred_le, N.neq_0_lt_0, N.pow_nonzero; lia).
  assert (1 ≤ n / 2 ^ e)%N as Hq.
  { apply N.div_le_lower_bound; [lia|]. rewrite N.mul_1_r.
    transitivity (2 ^ N.log2 n)%N; [apply N.pow_le_mono_r; lia|].
    by apply N.log2_spec. }
  set (q := (n / 2 ^ e)%N) in *.
  set (q' := if (n mod 2 ^ e <? 2 ^ (e - 1))%N then q
             else if (2 ^ (e - 1) <? n mod 2 ^ e)%N then (q + 1)%N
             else if N.even q then q else (q + 1)%N).
  assert (1 ≤ q')%N as Hq' by (unfold q'; repeat case_match; lia).
  destruct (N.ltb_spec (q' * 2 ^ e) (2 ^ 1024)) as [_|_]; [|done].
  apply N.ltb_lt. nia.
Qed.

(** A value of digits and commas with a digit from 1 to 9 is read as a
    positive number. *)
Lemma Number_removeCommas_positive (v : string) :
  canCastToNumber v = true → has_nonzero_digit v = true →
  number_ltb (Finite 0) (Number (removeCommas v)) = true.
Proof.
  intros Hv Hnz. assert (all_digit_or_comma v = true) as Hall by (by destruct v).
  destruct (digits_value_positive v 0 Hall) as (n & Hn & _ & Hpos).
  unfold Number. rewrite Hn. by apply round_to_double_positive, Hpos.
Qed.

(** A value made of commas is compared with a number as "0" is. *)
Lemma compareValues_commas_zero (sign : Z) (s w : string) :
  s ≠ EmptyString → all_commas s = true → canCastToNumber w = true →
  compareValues sign s w = compareValues sign "0" w
  ∧ compareValues sign w s = compareValues sign w "0".
Proof.
  intros Hne Hs Hw. unfold compareValues.
  rewrite (all_commas_canCastToNumber s Hne Hs), Hw, (all_commas_removeCommas s Hs).
  done.
Qed.

(** ** The methods, step by step *)

Lemma rows_at_lookup (st : State) (data : loc) (rows : list Row) :
  heap st !! data = Some rows → rows_at data st = rows.
Proof. unfold rows_at. by intros ->. Qed.

Lemma rows_at_set_heap_insert (st : State) (data : loc) (rows : list Row) :
  rows_at data (set_heap <[data := rows]> st) = rows.
Proof. unfold rows_at. simpl. by rewrite lookup_insert_eq. Qed.

Lemma Array_find_never {A} (f : A → A) (l : list A) :
  Array_find (λ x, (f x, false)) l = (f <$> l, None).
Proof. induction l as [|x l IH]; [done|]. simpl. by rewrite IH. Qed.

Lemma truthy_nonempty (s : string) : s ≠ EmptyString → truthy s = true.
Proof. intros H. unfold truthy. by destruct s. Qed.

Lemma getHeaderColmun_first (columnId : string) (st : State)
    (column : Column) (rest : list Column) :
  columnId ≠ EmptyString → header st = column :: rest →
  getHeaderColmun columnId st
  = Returns (Some 0%nat) (set_header (λ _, with_id columnId column :: rest) st).
Proof.
  intros Hne Hh. unfold getHeaderColmun, mbind, M_bind, gets. rewrite Hh.
  by rewrite (truthy_nonempty _ Hne).
Qed.

Lemma getHeaderColmun_empty_header (columnId : string) (st : State) :
  header st = [] →
  getHeaderColmun columnId st = Returns None (set_header (λ _, []) st).
Proof. intros Hh. unfold getHeaderColmun, mbind, M_bind, gets. by rewrite Hh. Qed.

(** With the empty id the assignment is falsy for every column: all of them
    are visited, all ids are overwritten, and nothing is found. *)
Lemma getHeaderColmun_empty_id (st : State) :
  getHeaderColmun EmptyString st
  = Returns None (set_header (λ _, with_id EmptyString <$> header st) st).
Proof.
  unfold getHeaderColmun, mbind, M_bind, gets. simpl.
  by rewrite Array_find_never.
Qed.

Lemma _sort_unfold (columnId : string) (direction : option SortDirection) (st : State) :
  _sort columnId direction st =
  match Array_sort (compareFn columnId (sign_of direction))
                   (rows_at (originalData st) st) with
  | None => Throws TypeError st
  | Some sorted =>
      Returns (originalData st) (set_heap <[originalData st := sorted]> st)
  end.
Proof.
  unfold _sort, mbind, M_bind, gets. by destruct (Array_sort _ _).
Qed.

Lemma _sort_returns (st : State) (columnId : string)
    (direction : option SortDirection) (rows : list Row) :
  heap st !! originalData st = Some rows →
  (∀ row, row ∈ rows → is_Some (row !! columnId)) →
  ∃ sorted,
    Array_sort (compareFn columnId (sign_of direction)) rows = Some sorted
    ∧ _sort columnId direction st
      = Returns (originalData st) (set_heap <[originalData st := sorted]> st).
Proof.
  intros Hrows Hkeys. rewrite _sort_unfold, (rows_at_lookup _ _ _ Hrows).
  destruct (Array_sort_is_Some (compareFn columnId (sign_of direction))
              (λ row, is_Some (row !! columnId)) rows) as [sorted Hs].
  - intros a b. apply compareFn_is_Some.
  - by apply Forall_forall.
  - rewrite Hs. by exists sorted.
Qed.

Lemma renderData_unfold (data : loc) (st : State) :
  renderData data st =
  match mapM (render_tr (columnIds st)) (rows_at data st) with
  | None => Throws TypeError st
  | Some trs => Returns () (set_tableElement (λ children, children ++ [tbody trs]) st)
  end.
Proof.
  unfold renderData, mbind, M_bind, gets. by destruct (mapM _ _).
Qed.

Lemma render_tr_is_Some (keys : list string) (row : Row) :
  (∀ key, key ∈ keys → is_Some (row !! key)) → is_Some (render_tr keys row).
Proof.
  intros Hkeys. unfold render_tr. apply mapM_is_Some, Forall_forall.
  intros key Hkey. destruct (Hkeys key Hkey) as [cell Hcell].
  unfold render_td. simpl. rewrite Hcell. simpl. eauto.
Qed.

(** The first steps of [sort], given what the selector engine answers. *)
Ltac sort_lookup Hsel Hel :=
  unfold sort; unfold mbind at 1, M_bind at 1; unfold querySelector_data_id;
  rewrite Hsel; unfold gets at 1; rewrite Hel.

(** [sort] up to its call of [_sort]. *)
Lemma sort_found (sel : string → option (Th → bool)) (columnId : string) (st : State)
    (matches : Th → bool) (colmunElement : ThRef) :
  sel columnId = Some matches →
  first_th matches 0 (tableElement st) = Some colmunElement →
  columnId ≠ EmptyString → header st ≠ [] →
  sort sel columnId st
  = (sortedData ← _sort columnId (Some (next_direction columnId st));
     modify (set_displayData sortedData);;
     renderData sortedData) (decided columnId colmunElement st).
Proof.
  intros Hsel Hel Hne Hh. destruct (header st) as [|column rest] eqn:Hhdr; [done|].
  sort_lookup Hsel Hel.
  unfold mbind at 1, M_bind at 1. rewrite (getHeaderColmun_first _ _ _ _ Hne Hhdr).
  unfold decided, next_direction. rewrite Hhdr.
  destruct st as [te hd ids od dd selc hp doc]. simpl in *. subst hd.
  unfold clearSortDirection, clearTableRow, column_sortDirection.
  unfold mbind, M_bind, modify, gets.
  cbn [set_header set_tableElement header tableElement selectedColumnId
       columnIds originalData displayData heap set_selectedColumnId].
  destruct (String.eqb selc columnId) eqn:Heq.
  - apply String.eqb_eq in Heq as ->. by cbn.
  - by cbn.
Qed.

(** [sort] throws before touching the data unless a header cell is selected,
    the id is not empty and the header has a column. *)
Lemma sort_Returns_found (sel : string → option (Th → bool)) (columnId : string)
    (st st' : State) :
  sort sel columnId st = Returns () st' →
  ∃ matches colmunElement,
    sel columnId = Some matches ∧
    first_th matches 0 (tableElement st) = Some colmunElement ∧
    columnId ≠ EmptyString ∧ header st ≠ [].
Proof.
  unfold sort. unfold mbind at 1, M_bind at 1. unfold querySelector_data_id.
  destruct (sel columnId) as [matches|]; [|done].
  unfold gets at 1.
  destruct (first_th matches 0 (tableElement st)) as [el|] eqn:Hel; [|done].
  destruct (decide (columnId = EmptyString)) as [->|Hne].
  { unfold mbind at 1, M_bind at 1. by rewrite getHeaderColmun_empty_id. }
  destruct (header st) as [|column rest] eqn:Hh.
  { unfold mbind at 1, M_bind at 1.
    by rewrite (getHeaderColmun_empty_header _ _ Hh). }
  intros _. by exists matches, el.
Qed.

(** What a returning [sort] leaves behind. *)
Lemma sort_Returns_state (sel : string → option (Th → bool)) (columnId : string)
    (st st' : State) :
  sort sel columnId st = Returns () st' →
  ∃ column rest sorted,
    header st = column :: rest
    ∧ Array_sort (compareFn columnId (sign_of (Some (next_direction columnId st))))
                 (rows_at (originalData st) st) = Some sorted
    ∧ header st'
      = with_sortDirection (next_direction columnId st) (with_id columnId column) :: rest
    ∧ selectedColumnId st' = columnId
    ∧ originalData st' = originalData st
    ∧ displayData st' = originalData st
    ∧ rows_at (originalData st) st' = sorted
    ∧ columnIds st' = columnIds st.
Proof.
  intros Hsort.
  destruct (sort_Returns_found _ _ _ _ Hsort) as (matches & el & Hsel & Hel & Hne & Hh).
  rewrite (sort_found _ _ _ _ _ Hsel Hel Hne Hh) in Hsort.
  destruct (header st) as [|column rest] eqn:Hhdr; [done|].
  exists column, rest.
  unfold mbind, M_bind in Hsort. rewrite _sort_unfold in Hsort.
  change (rows_at (originalData (decided columnId el st)) (decided columnId el st))
    with (rows_at (originalData st) st) in Hsort.
  destruct (Array_sort _ _) as [sorted|]; [|done].
  exists sorted. unfold modify in Hsort. rewrite renderData_unfold in Hsort.
  destruct (mapM _ _) as [trs|]; [|done].
  injection Hsort as <-. unfold decided. rewrite Hhdr. simpl.
  repeat split; try done. unfold rows_at. simpl. by rewrite lookup_insert_eq.
Qed.

Lemma next_direction_after (columnId : string) (st : State)
    (column : Column) (rest : list Column) (applied : SortDirection) :
  selectedColumnId st = columnId →
  header st = with_sortDirection applied column :: rest →
  next_direction columnId st = getInversedSortDirection (Some applied).
Proof.
  intros Hs Hh. unfold next_direction. rewrite Hs, Hh, String.eqb_refl. done.
Qed.

(** ** When [sort] throws and when it returns *)

Lemma sort_no_header_cell (sel : string → option (Th → bool)) (columnId : string)
    (st : State) (matches : Th → bool) :
  sel columnId = Some matches →
  first_th matches 0 (tableElement st) = None →
  sort sel columnId st = Throws (DataIdNotFound columnId) st.
Proof.
  intros Hsel Hel. by sort_lookup Hsel Hel.
Qed.

Lemma sort_empty_header (sel : string → option (Th → bool)) (columnId : string)
    (st : State) (matches : Th → bool) (colmunElement : ThRef) :
  sel columnId = Some matches →
  first_th matches 0 (tableElement st) = Some colmunElement →
  header st = [] →
  sort sel columnId st = Throws (DataIdNotFound columnId) (set_header (λ _, []) st).
Proof.
  intros Hsel Hel Hh. sort_lookup Hsel Hel.
  unfold mbind at 1, M_bind at 1. by rewrite (getHeaderColmun_empty_header _ _ Hh).
Qed.

Lemma sort_empty_columnId (sel : string → option (Th → bool)) (st : State)
    (matches : Th → bool) (colmunElement : ThRef) :
  sel EmptyString = Some matches →
  first_th matches 0 (tableElement st) = Some colmunElement →
  sort sel EmptyString st
  = Throws (DataIdNotFound EmptyString) (set_header (λ _, with_id EmptyString <$> header st) st).
Proof.
  intros Hsel Hel. sort_lookup Hsel Hel.
  unfold mbind at 1, M_bind at 1. by rewrite getHeaderColmun_empty_id.
Qed.

Lemma sort_returns (sel : string → option (Th → bool)) (columnId : string)
    (st : State) (matches : Th → bool) (colmunElement : ThRef) (rows : list Row) :
  sel columnId = Some matches →
  first_th matches 0 (tableElement st) = Some colmunElement →
  columnId ≠ EmptyString → header st ≠ [] →
  heap st !! originalData st = Some rows →
  (∀ row key, row ∈ rows → key ∈ columnId :: columnIds st → is_Some (row !! key)) →
  ∃ st', sort sel columnId st = Returns () st'.
Proof.
  intros Hsel Hel Hne Hh Hrows Hkeys.
  rewrite (sort_found _ _ _ _ _ Hsel Hel Hne Hh). unfold mbind, M_bind.
  destruct (_sort_returns (decided columnId colmunElement st) columnId
              (Some (next_direction columnId st)) rows Hrows)
    as (sorted & Hsorted & ->).
  { intros row Hrow. apply Hkeys; [done|by left]. }
  unfold modify. rewrite renderData_unfold.
  replace (rows_at _ _) with sorted
    by (unfold rows_at; simpl; by rewrite lookup_insert_eq).
  destruct (mapM_is_Some_2 (render_tr (columnIds st)) sorted) as [trs Htrs].
  - apply Forall_forall. intros row Hrow. apply render_tr_is_Some.
    intros key Hkey. apply Hkeys; [|by right].
    by rewrite <- (Array_sort_Permutation _ _ _ Hsorted).
  - cbn [columnIds set_displayData set_heap decided]. rewrite Htrs. eauto.
Qed.

(** Once the header cell and a column are found the decision is recorded,
    whether the sort then completes or a missing cell makes it throw. *)
Lemma sort_decision_recorded (sel : string → option (Th → bool)) (columnId : string)
    (st : State) (matches : Th → bool) (colmunElement : ThRef)
    (column : Column) (rest : list Column) :
  sel columnId = Some matches →
  first_th matches 0 (tableElement st) = Some colmunElement →
  columnId ≠ EmptyString → header st = column :: rest →
  let st' := state_of (sort sel columnId st) in
  selectedColumnId st' = columnId
  ∧ header st'
    = with_sortDirection (next_direction columnId st) (with_id columnId column) :: rest.
Proof.
  intros Hsel Hel Hne Hh.
  rewrite (sort_found _ _ _ _ _ Hsel Hel Hne) by (by rewrite Hh).
  unfold mbind, M_bind. rewrite _sort_unfold.
  destruct (Array_sort _ _) as [sorted|]; cbn [state_of].
  - unfold modify. rewrite renderData_unfold.
    destruct (mapM _ _); unfold decided; rewrite Hh; done.
  - unfold decided. by rewrite Hh.
Qed.

(** ** The example tables *)

Lemma fresh_table_constructed (rows : list Row) :
  new_SortableTable bare_page (Some []) (caller_heap rows) = inr (fresh_table rows).
Proof. reflexivity. Qed.

Lemma missing_container_throws (doc : Document) (h : gmap loc (list Row)) :
  new_SortableTable doc None h = inl TableElementNotFound.
Proof. reflexivity. Qed.

Lemma people_have_age : ∀ row, row ∈ people → is_Some (row !! "age").
Proof.
  intros row Hrow. unfold people in Hrow.
  repeat (apply elem_of_cons in Hrow as [->|Hrow]; [by vm_compute; eauto|]).
  by apply elem_of_nil in Hrow.
Qed.

Lemma people_age_numeric : numeric_column "age" people.
Proof.
  intros row Hrow.
  apply elem_of_cons in Hrow as [->|Hrow]; [by exists "30"|].
  apply elem_of_cons in Hrow as [->|Hrow]; [by exists "5"|].
  by apply elem_of_nil in Hrow.
Qed.

Lemma people_name_textual : textual_column "name" people.
Proof.
  intros row Hrow.
  apply elem_of_cons in Hrow as [->|Hrow]; [by exists "Bob"|].
  apply elem_of_cons in Hrow as [->|Hrow]; [by exists "Ann"|].
  by apply elem_of_nil in Hrow.
Qed.

Example scenario_clicks :
  let start := loaded_table name_age people in
  ∃ age_up age_down name_up,
    sort plain_selector "age" start = Returns () age_up
    ∧ sort plain_selector "age" age_up = Returns () age_down
    ∧ sort plain_selector "name" age_down = Returns () name_up
    ∧ cell_values "name" (rows_at (displayData age_up) age_up) = [Some "Ann"; Some "Bob"]
    ∧ cell_values "name" (rows_at (displayData age_down) age_down) = [Some "Bob"; Some "Ann"]
    ∧ cell_values "name" (rows_at (displayData name_up) name_up) = [Some "Ann"; Some "Bob"]
    ∧ tableElement name_up
      = [ thead [ mkTh "name" "Name" true (Some "name") ["sortable"; "sort"; "sort-asc"] 1;
                  mkTh "age" "Age" true (Some "age") ["sortable"; "sort"] 1 ];
          tbody [ [td_innerText "Ann"; td_innerText "5"];
                  [td_innerText "Bob"; td_innerText "30"] ] ].
Proof.
  do 3 eexists. split; [vm_compute; reflexivity|].
  split; [vm_compute; reflexivity|]. split; [vm_compute; reflexivity|].
  repeat split; reflexivity.
Qed.

(** ** The comparison policy on the two example columns *)

(** C1, as amended: for a column whose three cell values are "10", "abc", "2",
    the ascending sort applies the policy pair by pair. "10" and "2" both
    match the numeric pattern and are compared as numbers; only the pairs with
    "abc" are compared as strings. The value order is ["2", "10", "abc"], and
    it is the only arrangement of the three rows that is sorted under the
    callback. *)
Theorem mixed_column_sorts_pairwise (st : State) (columnId : string)
    (r10 rabc r2 : Row) :
  has_value columnId r10 "10" → has_value columnId rabc "abc" →
  has_value columnId r2 "2" →
  heap st !! originalData st = Some [r10; rabc; r2] →
  _sort columnId (Some asc) st
  = Returns (originalData st) (set_heap <[originalData st := [r2; r10; rabc]]> st)
  ∧ cell_values columnId [r2; r10; rabc] = [Some "2"; Some "10"; Some "abc"]
  ∧ canCastToNumber "10" && canCastToNumber "2" = true
  ∧ canCastToNumber "abc" = false
  ∧ compareFn columnId 1 r10 r2 = Some 1
  ∧ compareFn columnId 1 r10 rabc = Some (-1)
  ∧ compareFn columnId 1 r2 rabc = Some (-1)
  ∧ ∀ arranged, arranged ≡ₚ [r10; rabc; r2] →
      StronglySorted (precedes (compareFn columnId 1)) arranged →
      arranged = [r2; r10; rabc].
Proof.
  intros H10 Habc H2 Hrows.
  assert (compareFn columnId 1 rabc r2 = Some 1) as Eabc_2
    by (by rewrite (compareFn_values _ 1 _ _ _ _ Habc H2)).
  assert (compareFn columnId 1 r10 rabc = Some (-1)) as E10_abc
    by (by rewrite (compareFn_values _ 1 _ _ _ _ H10 Habc)).
  assert (compareFn columnId 1 r10 r2 = Some 1) as E10_2
    by (by rewrite (compareFn_values _ 1 _ _ _ _ H10 H2)).
  assert (compareFn columnId 1 r2 rabc = Some (-1)) as E2_abc
    by (by rewrite (compareFn_values _ 1 _ _ _ _ H2 Habc)).
  assert (compareFn columnId 1 r2 r10 = Some (-1)) as E2_10
    by (by rewrite (compareFn_values _ 1 _ _ _ _ H2 H10)).
  assert (compareFn columnId 1 rabc r10 = Some 1) as Eabc_10
    by (by rewrite (compareFn_values _ 1 _ _ _ _ Habc H10)).
  repeat split; try done.
  - rewrite _sort_unfold, (rows_at_lookup _ _ _ Hrows). simpl sign_of.
    by rewrite (Array_sort_three _ _ _ _ _ _ _ Eabc_2 E10_abc E10_2).
  - by rewrite (cell_values_cons _ _ _ _ H2), (cell_values_cons _ _ _ _ H10),
         (cell_values_cons _ _ _ _ Habc).
  - intros arranged Hperm Hsorted.
    apply (sorted_three_unique columnId r2 r10 rabc); [done..| |done].
    rewrite Hperm.
    change ([r10; rabc] ++ [r2] ≡ₚ [r2] ++ [r10; rabc]). apply Permutation_app_comm.
Qed.

Lemma mixed_column_sorts_pairwise_witness :
  let st := loaded_table column_c mixed_rows in
  let r10 : Row := {[ "c" := plain "10" ]} in
  let rabc : Row := {[ "c" := plain "abc" ]} in
  let r2 : Row := {[ "c" := plain "2" ]} in
  _sort "c" (Some asc) st
  = Returns (originalData st) (set_heap <[originalData st := [r2; r10; rabc]]> st)
  ∧ cell_values "c" [r2; r10; rabc] = [Some "2"; Some "10"; Some "abc"]
  ∧ canCastToNumber "10" && canCastToNumber "2" = true
  ∧ canCastToNumber "abc" = false
  ∧ compareFn "c" 1 r10 r2 = Some 1
  ∧ compareFn "c" 1 r10 rabc = Some (-1)
  ∧ compareFn "c" 1 r2 rabc = Some (-1)
  ∧ ∀ arranged, arranged ≡ₚ [r10; rabc; r2] →
      StronglySorted (precedes (compareFn "c" 1)) arranged →
      arranged = [r2; r10; rabc].
Proof.
  apply (mixed_column_sorts_pairwise (loaded_table column_c mixed_rows) "c"
           {[ "c" := plain "10" ]} {[ "c" := plain "abc" ]} {[ "c" := plain "2" ]}).
  - apply has_value_singleton.
  - apply has_value_singleton.
  - apply has_value_singleton.
  - reflexivity.
Defined.

(** C1 as stated fails: on the table holding "10", "abc", "2" the ascending
    sort yields ["2", "10", "abc"], not the lexicographic ["10", "2", "abc"];
    the callback puts "10" after "2". *)
Lemma mixed_column_is_not_lexicographic :
  let st := loaded_table column_c mixed_rows in
  cell_values "c" (rows_at (displayData st) st) = [Some "10"; Some "abc"; Some "2"]
  ∧ ∃ st',
      sort plain_selector "c" st = Returns () st'
      ∧ sortDirection <$> header st' = [Some asc]
      ∧ cell_values "c" (rows_at (displayData st') st')
        = [Some "2"; Some "10"; Some "abc"]
      ∧ cell_values "c" (rows_at (displayData st') st')
        ≠ [Some "10"; Some "2"; Some "abc"]
      ∧ (cell_values "c" <$> Array_sort (lexicographicFn "c" 1)
                                        (rows_at (displayData st) st))
        = Some [Some "10"; Some "2"; Some "abc"]
      ∧ compareFn "c" 1 {[ "c" := plain "10" ]} {[ "c" := plain "2" ]} = Some 1.
Proof.
  split; [reflexivity|]. eexists. split; [vm_compute; reflexivity|].
  repeat split; try reflexivity. vm_compute. discriminate.
Qed.



(** ** The sort state machine *)

(** C3, as amended: whenever [sort(columnId)] goes through, it works on the
    header column the lookup returns. If [columnId] is the selected column
    id, the direction applied is the flip of the direction recorded on that
    column (asc to desc, desc to asc, unset to asc); otherwise [columnId]
    becomes the selected id and the direction is asc. The direction applied
    is recorded on that column and is the one the rows are sorted by: the
    displayed rows are the backing rows rearranged, in order for that
    direction wherever the callback is transitive on them. Hence sorting the
    same column again right away applies the flip of the direction applied
    before. *)
Theorem sort_direction_decision (sel : string → option (Th → bool))
    (columnId : string) (st st' : State) :
  sort sel columnId st = Returns () st' →
  ∃ (k : nat) (column : Column) (st0 : State),
    getHeaderColmun columnId st = Returns (Some k) st0
    ∧ header st !! k = Some column
    ∧ let applied :=
        if String.eqb (selectedColumnId st) columnId
        then getInversedSortDirection (sortDirection column)
        else asc in
      sortDirection <$> header st' !! k = Some (Some applied)
      ∧ selectedColumnId st' = columnId
      ∧ rows_at (displayData st') st' ≡ₚ rows_at (originalData st) st
      ∧ (consistent columnId (rows_at (originalData st) st) →
         StronglySorted (precedes (compareFn columnId (sign_of (Some applied))))
                        (rows_at (displayData st') st'))
      ∧ getInversedSortDirection (Some asc) = desc
      ∧ getInversedSortDirection (Some desc) = asc
      ∧ getInversedSortDirection None = asc
      ∧ ∀ st'', sort sel columnId st' = Returns () st'' →
          sortDirection <$> header st'' !! k
          = Some (Some (getInversedSortDirection (Some applied)))
          ∧ (consistent columnId (rows_at (originalData st) st) →
             StronglySorted
               (precedes (compareFn columnId
                            (sign_of (Some (getInversedSortDirection (Some applied))))))
               (rows_at (displayData st'') st'')).
Proof.
  intros Hsort.
  destruct (sort_Returns_found _ _ _ _ Hsort) as (_ & _ & _ & _ & Hne & _).
  destruct (sort_Returns_state _ _ _ _ Hsort)
    as (column & rest & sorted & Hh & Hs & Hh' & Hsel' & Hod & Hdd & Hrows & _).
  exists 0%nat, column, (set_header (λ _, with_id columnId column :: rest) st).
  split; [by apply getHeaderColmun_first|]. split; [by rewrite Hh|].
  assert (next_direction columnId st
          = if String.eqb (selectedColumnId st) columnId
            then getInversedSortDirection (sortDirection column) else asc) as Hd
    by (unfold next_direction; by rewrite Hh).
  rewrite Hd in *. cbv zeta.
  pose proof (Array_sort_Permutation _ _ _ Hs) as Hperm.
  rewrite Hdd, Hrows, Hh'.
  split; [done|]. split; [done|]. split; [done|].
  split; [by apply Array_sort_consistent|].
  split; [done|]. split; [done|]. split; [done|].
  intros st'' Hsort'.
  destruct (sort_Returns_state _ _ _ _ Hsort')
    as (column' & rest' & sorted' & Hh1 & Hs' & Hh'' & _ & _ & Hdd' & Hrows' & _).
  rewrite (next_direction_after _ _ (with_id columnId column) rest _ Hsel' Hh') in Hh'', Hs'.
  rewrite Hdd', Hrows', Hh''. split; [done|]. intros Hcons.
  rewrite Hod, Hrows in Hs'.
  apply Array_sort_consistent with sorted; [done|].
  by apply consistent_Permutation with (rows_at (originalData st) st).
Qed.

Lemma sort_direction_decision_witness :
  ∃ (k : nat) (column : Column) (st0 : State),
    getHeaderColmun "age" (loaded_table name_age people) = Returns (Some k) st0
    ∧ header (loaded_table name_age people) !! k = Some column
    ∧ sortDirection <$> header age_sorted_once !! k = Some (Some asc)
    ∧ selectedColumnId age_sorted_once = "age"
    ∧ rows_at (displayData age_sorted_once) age_sorted_once
      ≡ₚ rows_at (originalData (loaded_table name_age people))
                 (loaded_table name_age people)
    ∧ StronglySorted (precedes (compareFn "age" (sign_of (Some asc))))
                     (rows_at (displayData age_sorted_once) age_sorted_once)
    ∧ sortDirection <$> header age_sorted_twice !! k = Some (Some desc)
    ∧ StronglySorted (precedes (compareFn "age" (sign_of (Some desc))))
                     (rows_at (displayData age_sorted_twice) age_sorted_twice).
Proof.
  destruct (sort_direction_decision plain_selector "age"
              (loaded_table name_age people) age_sorted_once)
    as (k & column & st0 & Hlookup & Hcolumn & Hrec & Hsel & Hperm & Hsorted
        & _ & _ & _ & Hnext); [vm_compute; reflexivity|].
  destruct (Hnext age_sorted_twice) as [Hrec' Hsorted']; [vm_compute; reflexivity|].
  assert (consistent "age" (rows_at (originalData (loaded_table name_age people))
                                    (loaded_table name_age people))) as Hcons
    by apply numeric_column_consistent, people_age_numeric.
  exists k, column, st0. repeat split; auto.
Defined.

(** C3 as stated fails once the header has been set again: the selection
    survives [setHeader] while the recorded directions do not. The column "c"
    is sorted ascending, the same header is set again, and the next sort of
    "c", which is the selected column, is ascending again instead of
    descending: it flips the direction the new header carries (desc, never
    applied). The same happens with a header that leaves the direction
    unset. *)
Lemma sort_after_setHeader_repeats_direction :
  let st := loaded_table column_c_desc numeric_rows in
  selectedColumnId st = EmptyString
  ∧ (∃ st1 st2 st3,
       sort plain_selector "c" st = Returns () st1
       ∧ setHeader (Some column_c_desc) st1 = Returns () st2
       ∧ sort plain_selector "c" st2 = Returns () st3
       ∧ sortDirection <$> header st1 = [Some asc]
       ∧ cell_values "c" (rows_at (displayData st1) st1)
         = [Some "2"; Some "10"; Some "1,000"]
       ∧ selectedColumnId st2 = "c"
       ∧ id <$> header st2 = ["c"]
       ∧ sortDirection <$> header st2 = [Some desc]
       ∧ sortDirection <$> header st3 = [Some asc]
       ∧ sortDirection <$> header st3 ≠ [Some (getInversedSortDirection (Some asc))]
       ∧ head (th_classList <$> all_th (tableElement st3))
         = Some ["sortable"; "sort"; "sort-asc"]
       ∧ cell_values "c" (rows_at (displayData st3) st3)
         = [Some "2"; Some "10"; Some "1,000"]
       ∧ cell_values "c" (rows_at (displayData st3) st3)
         ≠ [Some "1,000"; Some "10"; Some "2"])
  ∧ ∃ st1 st2 st3,
      sort plain_selector "c" (loaded_table column_c numeric_rows) = Returns () st1
      ∧ setHeader (Some column_c) st1 = Returns () st2
      ∧ sort plain_selector "c" st2 = Returns () st3
      ∧ sortDirection <$> header st1 = [Some asc]
      ∧ selectedColumnId st2 = "c"
      ∧ sortDirection <$> header st2 = [None]
      ∧ sortDirection <$> header st3 = [Some asc]
      ∧ cell_values "c" (rows_at (displayData st3) st3)
        = [Some "2"; Some "10"; Some "1,000"].
Proof.
  split; [reflexivity|]. split.
  - eexists _, _, _.
    split; [vm_compute; reflexivity|]. split; [vm_compute; reflexivity|].
    split; [vm_compute; reflexivity|].
    repeat split; try reflexivity; vm_compute; discriminate.
  - eexists _, _, _.
    split; [vm_compute; reflexivity|]. split; [vm_compute; reflexivity|].
    split; [vm_compute; reflexivity|].
    repeat split; reflexivity.
Qed.

(** C4, as amended: for every dataset that the comparison policy orders
    strictly and consistently on column C (no two rows at different positions
    compare equal, and the comparison is transitive on the rows), sorting
    column C (ascending) and then sorting column C again (descending) yields
    exactly the reverse of the ascending row order. *)
Theorem toggle_reverses_strictly_ordered_rows (sel : string → option (Th → bool))
    (columnId : string) (st st1 st2 : State) :
  next_direction columnId st = asc →
  sort sel columnId st = Returns () st1 →
  sort sel columnId st1 = Returns () st2 →
  no_ties columnId (rows_at (displayData st1) st1) →
  consistent columnId (rows_at (displayData st1) st1) →
  sortDirection <$> head (header st1) = Some (Some asc)
  ∧ sortDirection <$> head (header st2) = Some (Some desc)
  ∧ rows_at (displayData st2) st2 = reverse (rows_at (displayData st1) st1).
Proof.
  intros Hasc Hsort1 Hsort2.
  destruct (sort_Returns_state _ _ _ _ Hsort1)
    as (column & rest & ascending & Hh & Hs1 & Hh1 & Hsel1 & Hod1 & Hdd1 & Hrows1 & _).
  destruct (sort_Returns_state _ _ _ _ Hsort2)
    as (column' & rest' & descending & _ & Hs2 & Hh2 & _ & _ & Hdd2 & Hrows2 & _).
  rewrite Hasc in *.
  rewrite (next_direction_after _ _ _ _ _ Hsel1 Hh1) in *.
  rewrite Hh1, Hh2, Hdd1, Hdd2, Hod1, Hrows1, Hrows2 in *. simpl in Hs1, Hs2.
  intros Hties Hcons. repeat split; try done.
  by apply (Array_sort_toggle columnId (rows_at (originalData st) st)).
Qed.

Lemma toggle_reverses_strictly_ordered_rows_witness :
  sortDirection <$> head (header age_sorted_once) = Some (Some asc)
  ∧ sortDirection <$> head (header age_sorted_twice) = Some (Some desc)
  ∧ rows_at (displayData age_sorted_twice) age_sorted_twice
    = reverse (rows_at (displayData age_sorted_once) age_sorted_once).
Proof.
  apply (toggle_reverses_strictly_ordered_rows plain_selector "age"
           (loaded_table name_age people) age_sorted_once age_sorted_twice).
  - reflexivity.
  - vm_compute. reflexivity.
  - vm_compute. reflexivity.
  - apply no_ties_pair. vm_compute. discriminate.
  - apply numeric_column_consistent. intros row Hrow.
    apply elem_of_cons in Hrow as [->|Hrow]; [by exists "5"|].
    apply elem_of_cons in Hrow as [->|Hrow]; [by exists "30"|].
    by apply elem_of_nil in Hrow.
Defined.

(** C4 as stated fails: "10" and "1,0" are distinct cell values, but they
    compare equal as numbers; both sorts leave the two rows as they are, and
    the second order is not the reverse of the first. *)
Lemma toggle_keeps_tied_rows :
  let st := loaded_table column_c tied_rows in
  cell_values "c" (rows_at (displayData st) st) = [Some "10"; Some "1,0"]
  ∧ NoDup (cell_values "c" (rows_at (displayData st) st))
  ∧ ∃ st1 st2,
      sort plain_selector "c" st = Returns () st1
      ∧ sort plain_selector "c" st1 = Returns () st2
      ∧ sortDirection <$> header st1 = [Some asc]
      ∧ sortDirection <$> header st2 = [Some desc]
      ∧ cell_values "c" (rows_at (displayData st1) st1) = [Some "10"; Some "1,0"]
      ∧ cell_values "c" (rows_at (displayData st2) st2) = [Some "10"; Some "1,0"]
      ∧ rows_at (displayData st2) st2 ≠ reverse (rows_at (displayData st1) st1).
Proof.
  split; [reflexivity|]. split.
  { apply (bool_decide_unpack _). vm_compute. exact I. }
  eexists. eexists. split; [vm_compute; reflexivity|].
  split; [vm_compute; reflexivity|].
  repeat split; try reflexivity.
  intros H. apply (f_equal (cell_values "c")) in H. vm_compute in H. discriminate H.
Qed.

(** ** The column lookup *)

(** C5: called with a non-empty columnId on a non-empty header, the lookup
    returns the first column of the header (index 0) and overwrites that
    column's id with the requested columnId; the rest of the state is as it
    was. *)
Theorem getHeaderColmun_takes_first_column (columnId : string) (st : State)
    (column : Column) (rest : list Column) :
  columnId ≠ EmptyString → header st = column :: rest →
  ∃ st',
    getHeaderColmun columnId st = Returns (Some 0%nat) st'
    ∧ header st' = with_id columnId column :: rest
    ∧ id <$> header st' !! 0%nat = Some columnId
    ∧ st' = set_header (λ _, with_id columnId column :: rest) st.
Proof.
  intros Hne Hh. eexists. split; [by apply getHeaderColmun_first|]. done.
Qed.

Lemma getHeaderColmun_takes_first_column_witness :
  ∃ st',
    getHeaderColmun "age" (loaded_table name_age people) = Returns (Some 0%nat) st'
    ∧ header st' = with_id "age" (mkColumn "name" "Name" true None)
                     :: [mkColumn "age" "Age" true None]
    ∧ id <$> header st' !! 0%nat = Some "age"
    ∧ st' = set_header (λ _, with_id "age" (mkColumn "name" "Name" true None)
                               :: [mkColumn "age" "Age" true None])
                       (loaded_table name_age people).
Proof.
  apply (getHeaderColmun_takes_first_column "age" (loaded_table name_age people)).
  - discriminate.
  - reflexivity.
Defined.

(** C6 does not hold of the code. After a second [setHeader] the header is the
    [city] column alone, while the header cell of [age] is still in the table.
    [sort("age")] finds that cell, the lookup hands back the first column with
    its id overwritten, and the sort returns with the rows reordered. *)
Theorem sort_of_unregistered_column_returns :
  let st := replaced_header_table in
  id <$> header st = ["city"]
  ∧ ("age" ∉ id <$> header st)
  ∧ cell_values "name" (rows_at (displayData st) st) = [Some "Bob"; Some "Ann"]
  ∧ ∃ st',
      sort plain_selector "age" st = Returns () st'
      ∧ cell_values "name" (rows_at (displayData st') st') = [Some "Ann"; Some "Bob"]
      ∧ id <$> header st' = ["age"]
      ∧ selectedColumnId st' = "age".
Proof.
  split; [reflexivity|]. split.
  { vm_compute. intros H. repeat (apply elem_of_cons in H as [H|H]; [discriminate H|]).
    by apply elem_of_nil in H. }
  split; [reflexivity|].
  eexists. split; [vm_compute; reflexivity|]. repeat split; reflexivity.
Qed.

(** ** Setting and reading the dataset *)

(** C7: for every dataset D (the array at reference [d]), after [setData(D)]
    the next [getTableData()] returns the reference [d] itself, and the array
    there still holds the rows of D in their order. This holds whether or not
    rendering the body succeeded. *)
Theorem setData_then_getTableData (st : State) (d : loc) (D : list Row) :
  heap st !! d = Some D →
  let st' := state_of (setData (Some d) st) in
  getTableData st' = Returns d st' ∧ rows_at d st' = D ∧ heap st' = heap st.
Proof.
  intros HD. unfold setData, mbind, M_bind, modify. rewrite renderData_unfold.
  unfold getTableData, gets, rows_at.
  destruct (mapM _ _); simpl; by rewrite HD.
Qed.

Lemma setData_then_getTableData_witness :
  let st' := state_of (setData (Some 0%nat) (fresh_table people)) in
  getTableData st' = Returns 0%nat st' ∧ rows_at 0%nat st' = people
  ∧ heap st' = heap (fresh_table people).
Proof.
  apply (setData_then_getTableData (fresh_table people) 0%nat people).
  reflexivity.
Defined.

(** C8, as amended: an absent (null/undefined) header or dataset is a silent
    no-op: the setter returns and the state is unchanged. An empty header or
    dataset raises no error either, but it is stored like any other: the
    header (resp. the backing and display dataset) is replaced and an empty
    [thead] (resp. [tbody]) is appended. *)
Theorem absent_argument_is_a_noop (st : State) :
  setHeader None st = Returns () st
  ∧ setData None st = Returns () st
  ∧ setHeader (Some []) st
    = Returns () (set_tableElement (λ children, children ++ [thead []])
                    (set_header (λ _, []) st))
  ∧ ∀ d, setData (Some d) (set_heap <[d := []]> st)
         = Returns () (set_tableElement (λ children, children ++ [tbody []])
                         (set_displayData d (set_originalData d
                            (set_heap <[d := []]> st)))).
Proof.
  split; [done|]. split; [done|]. split.
  - destruct st. unfold setHeader, renderHeader, setupEventListner.
    unfold mbind, M_bind, modify, gets. cbn. unfold set_tableElement, set_columnIds, set_header. simpl. by rewrite app_nil_r.
  - intros d. unfold setData, mbind, M_bind, modify. rewrite renderData_unfold.
    unfold rows_at. cbn. by rewrite lookup_insert_eq.
Qed.

(** C8 as stated fails: on a table with a header and two rows, an empty header
    replaces the header, and an empty dataset becomes the backing and display
    dataset. *)
Lemma empty_arguments_are_stored :
  let st := loaded_table name_age people in
  header st = name_age
  ∧ header (state_of (setHeader (Some []) st)) = []
  ∧ rows_at (displayData st) st = people
  ∧ (let st' := state_of (setData (Some 1%nat) st) in
     heap st !! 1%nat = Some [] ∧ rows_at (displayData st') st' = []
     ∧ rows_at (originalData st') st' = [])
  ∧ state_of (setHeader (Some []) st) ≠ st
  ∧ state_of (setData (Some 1%nat) st) ≠ st.
Proof.
  repeat split; try reflexivity.
  - intros H. apply (f_equal header) in H. discriminate H.
  - intros H. apply (f_equal displayData) in H. discriminate H.
Qed.

(** ** The internal sort *)

(** C9: for every backing dataset, every columnId present as a key in all of
    its rows, and every direction, [_sort] returns, and the array it leaves in
    place of the backing dataset is a permutation of it: the same rows, none
    added, dropped or changed. Nothing else in the state changes. *)
Theorem _sort_permutes_backing_dataset (st : State) (columnId : string)
    (direction : option SortDirection) (rows : list Row) :
  heap st !! originalData st = Some rows →
  (∀ row, row ∈ rows → is_Some (row !! columnId)) →
  ∃ sorted,
    _sort columnId direction st
    = Returns (originalData st) (set_heap <[originalData st := sorted]> st)
    ∧ sorted ≡ₚ rows.
Proof.
  intros Hrows Hkeys. rewrite _sort_unfold, (rows_at_lookup _ _ _ Hrows).
  destruct (Array_sort_is_Some (compareFn columnId (sign_of direction))
              (λ row, is_Some (row !! columnId)) rows) as [sorted Hs].
  - intros a b. apply compareFn_is_Some.
  - by apply Forall_forall.
  - rewrite Hs. exists sorted. split; [done|]. by apply Array_sort_Permutation in Hs.
Qed.

Lemma _sort_permutes_backing_dataset_witness :
  ∃ sorted,
    _sort "age" (Some desc) (loaded_table name_age people)
    = Returns 0%nat (set_heap <[0%nat := sorted]> (loaded_table name_age people))
    ∧ sorted ≡ₚ people.
Proof.
  apply (_sort_permutes_backing_dataset (loaded_table name_age people) "age"
           (Some desc) people).
  - reflexivity.
  - intros row Hrow. unfold people in Hrow.
    repeat (apply elem_of_cons in Hrow as [->|Hrow]; [by vm_compute; eauto|]).
    by apply elem_of_nil in Hrow.
Defined.

(** C10, as amended: a cell value consisting only of commas matches the
    numeric pattern, its commas are stripped to the empty string, and against
    every value that matches the pattern it is compared as the number 0.
    Against a value of digits and commas with a digit from 1 to 9, a positive
    number, the ascending callback answers -1 (and 1 the other way round). In
    a dataset whose rows all have the cell and on which the callback is
    transitive, the ascending sort therefore leaves the row of commas before
    the row of every such value. *)
Theorem comma_only_value_sorts_as_zero (columnId s v : string) (a b : Row)
    (st : State) (rows : list Row) :
  s ≠ EmptyString → all_commas s = true →
  canCastToNumber v = true → has_nonzero_digit v = true →
  has_value columnId a s → has_value columnId b v →
  heap st !! originalData st = Some rows →
  a ∈ rows → b ∈ rows →
  (∀ row, row ∈ rows → is_Some (row !! columnId)) →
  consistent columnId rows →
  canCastToNumber s = true
  ∧ removeCommas s = EmptyString
  ∧ Number (removeCommas s) = Finite 0
  ∧ (∀ sign w, canCastToNumber w = true →
       compareValues sign s w = compareValues sign "0" w
       ∧ compareValues sign w s = compareValues sign w "0")
  ∧ number_ltb (Finite 0) (Number (removeCommas v)) = true
  ∧ compareFn columnId 1 a b = Some (-1)
  ∧ compareFn columnId 1 b a = Some 1
  ∧ ∃ sorted,
      _sort columnId (Some asc) st
      = Returns (originalData st) (set_heap <[originalData st := sorted]> st)
      ∧ sorted ≡ₚ rows
      ∧ ∀ i j : nat, sorted !! i = Some a → sorted !! j = Some b → (i < j)%nat.
Proof.
  intros Hne Hs Hv Hnz Ha Hb Hrows Hain Hbin Hkeys Hcons.
  pose proof (all_commas_removeCommas s Hs) as Hrm.
  pose proof (Number_removeCommas_positive v Hv Hnz) as Hpos.
  split; [by apply all_commas_canCastToNumber|]. split; [done|].
  split; [by rewrite Hrm|].
  split; [by intros sign w Hw; apply compareValues_commas_zero|].
  split; [done|].
  destruct (compareValues_commas_positive s v Hne Hs Hv Hpos) as [Hab Hba].
  assert (compareFn columnId 1 a b = Some (-1)) as Eab
    by (by rewrite (compareFn_values _ _ _ _ _ _ Ha Hb), Hab).
  assert (compareFn columnId 1 b a = Some 1) as Eba
    by (by rewrite (compareFn_values _ _ _ _ _ _ Hb Ha), Hba).
  split; [done|]. split; [done|].
  destruct (_sort_returns st columnId (Some asc) rows Hrows Hkeys) as (sorted & Hsorted & ->).
  exists sorted. split; [done|].
  pose proof (Array_sort_Permutation _ _ _ Hsorted) as Hperm. split; [done|].
  intros i j Hi Hj.
  pose proof (Array_sort_consistent _ _ _ _ Hsorted Hcons) as Hss.
  destruct (Nat.lt_trichotomy i j) as [Hlt|[->|Hgt]]; [done| |].
  - rewrite Hi in Hj. injection Hj as ->.
    apply compareFn_refl in Eab. lia.
  - destruct (StronglySorted_lookup _ _ _ _ _ _ Hss Hgt Hj Hi) as (c & Hc & Hle).
    simpl in Hc. rewrite Eba in Hc. injection Hc as <-. lia.
Qed.

Lemma comma_rows_numeric : numeric_column "c" comma_rows.
Proof.
  intros row Hrow.
  apply elem_of_cons in Hrow as [->|Hrow]; [by exists "1,000"|].
  apply elem_of_cons in Hrow as [->|Hrow]; [by exists ","|].
  apply elem_of_cons in Hrow as [->|Hrow]; [by exists "2"|].
  by apply elem_of_nil in Hrow.
Qed.

Lemma comma_only_value_sorts_as_zero_witness :
  let st := loaded_table column_c comma_rows in
  let a : Row := {[ "c" := plain "," ]} in
  let b : Row := {[ "c" := plain "1,000" ]} in
  canCastToNumber "," = true
  ∧ removeCommas "," = EmptyString
  ∧ Number (removeCommas ",") = Finite 0
  ∧ (∀ sign w, canCastToNumber w = true →
       compareValues sign "," w = compareValues sign "0" w
       ∧ compareValues sign w "," = compareValues sign w "0")
  ∧ number_ltb (Finite 0) (Number (removeCommas "1,000")) = true
  ∧ compareFn "c" 1 a b = Some (-1)
  ∧ compareFn "c" 1 b a = Some 1
  ∧ ∃ sorted,
      _sort "c" (Some asc) st
      = Returns (originalData st) (set_heap <[originalData st := sorted]> st)
      ∧ sorted ≡ₚ comma_rows
      ∧ ∀ i j : nat, sorted !! i = Some a → sorted !! j = Some b → (i < j)%nat.
Proof.
  apply (comma_only_value_sorts_as_zero "c" "," "1,000"
           {[ "c" := plain "," ]} {[ "c" := plain "1,000" ]}
           (loaded_table column_c comma_rows) comma_rows).
  - discriminate.
  - reflexivity.
  - reflexivity.
  - reflexivity.
  - apply has_value_singleton.
  - apply has_value_singleton.
  - reflexivity.
  - unfold comma_rows. apply elem_of_cons. right. by left.
  - by left.
  - intros row Hrow. destruct (comma_rows_numeric row Hrow) as (w & Hw & _).
    by apply has_value_is_Some with w.
  - apply numeric_column_consistent, comma_rows_numeric.
Defined.

(** C10 as stated fails where the column also holds a value that is not a
    number: among "0,1", "0-", "00" and "," the ascending sort moves nothing,
    and the commas stay last, behind "0,1", whose number is 1. Each
    neighbour is in order with the next ("0,1" before "0-" and "0-" before
    "00" as strings, "00" and "," both 0), so the sort never compares the
    commas with "0,1". *)
Lemma comma_only_value_stays_behind :
  let st := loaded_table column_c stray_rows in
  canCastToNumber "," = true ∧ all_commas "," = true
  ∧ canCastToNumber "0,1" = true ∧ has_nonzero_digit "0,1" = true
  ∧ Number (removeCommas "0,1") = Finite 1
  ∧ compareFn "c" 1 {[ "c" := plain "," ]} {[ "c" := plain "0,1" ]} = Some (-1)
  ∧ compareFn "c" 1 {[ "c" := plain "0,1" ]} {[ "c" := plain "0-" ]} = Some (-1)
  ∧ compareFn "c" 1 {[ "c" := plain "0-" ]} {[ "c" := plain "00" ]} = Some (-1)
  ∧ compareFn "c" 1 {[ "c" := plain "00" ]} {[ "c" := plain "," ]} = Some 0
  ∧ ∃ st',
      sort plain_selector "c" st = Returns () st'
      ∧ sortDirection <$> header st' = [Some asc]
      ∧ cell_values "c" (rows_at (displayData st') st')
        = [Some "0,1"; Some "0-"; Some "00"; Some ","].
Proof.
  repeat (split; [reflexivity|]).
  eexists. split; [vm_compute; reflexivity|]. split; reflexivity.
Qed.

(** * Further properties of the methods *)

(** ** The internal sort, in general *)

Section ArraySortMore.
Context {A : Type} (comparefn : A → A → option Z).

(** An array that is already in order is left exactly as it is. *)
Lemma Array_sort_sorted_input (l : list A) :
  StronglySorted (precedes comparefn) l → Array_sort comparefn l = Some l.
Proof.
  induction 1 as [|x l Hs IH Hx]; [done|]. simpl. rewrite IH. simpl.
  destruct l as [|y l']; [done|]. simpl.
  apply Forall_cons in Hx as [(c & -> & Hc) _]. simpl.
  by rewrite (proj2 (Z.leb_le c 0) Hc).
Qed.

(** A row that cannot be compared with any other makes the sort of two or
    more rows throw. *)
Lemma insert_sorted_bad_head (x y : A) (l : list A) :
  comparefn x y = None → insert_sorted comparefn x (y :: l) = None.
Proof. intros H. simpl. by rewrite H. Qed.

Lemma Array_sort_uncomparable (bad : A → Prop) (l : list A) :
  (∀ a b, bad a ∨ bad b → comparefn a b = None) →
  (2 ≤ length l)%nat → Exists bad l → Array_sort comparefn l = None.
Proof.
  intros Hbad. induction l as [|x l IH]; intros Hlen Hex; [simpl in Hlen; lia|].
  simpl. destruct (Array_sort comparefn l) as [s|] eqn:Hs; [|done]. simpl.
  pose proof (Array_sort_Permutation _ _ _ Hs) as Hperm.
  destruct s as [|y s'].
  { apply Permutation_nil in Hperm. subst l. simpl in Hlen. lia. }
  apply insert_sorted_bad_head.
  apply Exists_cons in Hex as [Hx|Hl]; [by apply Hbad; left|].
  destruct l as [|z [|z2 l2]]; [by apply Exists_nil in Hl| |].
  - apply Permutation_singleton_r in Hperm. simplify_eq.
    apply Exists_cons in Hl as [Hz|Hl]; [by apply Hbad; right|].
    by apply Exists_nil in Hl.
  - discriminate IH; [simpl; lia|done].
Qed.

(** With fewer than two elements nothing is compared. *)
Lemma Array_sort_short (l : list A) :
  (length l < 2)%nat → Array_sort comparefn l = Some l.
Proof. destruct l as [|x [|y l]]; simpl; (done || lia). Qed.
End ArraySortMore.

Lemma set_heap_insert_same (st : State) (data : loc) (rows : list Row) :
  heap st !! data = Some rows → set_heap <[data := rows]> st = st.
Proof. intros H. destruct st. unfold set_heap. simpl in *. by rewrite insert_id. Qed.

Lemma compareFn_None (columnId : string) (sign : Z) (a b : Row) :
  columnId ∉ Object_prototype →
  a !! columnId = None ∨ b !! columnId = None → compareFn columnId sign a b = None.
Proof.
  intros Hout Hnone. apply eq_None_not_Some. rewrite compareFn_is_Some_iff.
  intros [Hin|[[ca Ha] [cb Hb]]]; [done|]. destruct Hnone; congruence.
Qed.

Lemma _sort_sorted (st : State) (columnId : string)
    (direction : option SortDirection) (rows : list Row) :
  heap st !! originalData st = Some rows →
  (∀ row, row ∈ rows → is_Some (row !! columnId)) →
  consistent columnId rows →
  ∃ sorted,
    _sort columnId direction st
    = Returns (originalData st) (set_heap <[originalData st := sorted]> st)
    ∧ sorted ≡ₚ rows
    ∧ StronglySorted (precedes (compareFn columnId (sign_of direction))) sorted.
Proof.
  intros Hrows Hkeys Hcons.
  destruct (_sort_returns st columnId direction rows Hrows Hkeys) as (sorted & Hs & ->).
  exists sorted. split; [done|].
  split; [by apply Array_sort_Permutation in Hs|].
  by apply Array_sort_consistent with rows.
Qed.

(** The sort of the rows throws exactly when there are two or more rows, one
    of them has no cell for the column, and the column id is not a name the
    rows inherit. *)
Lemma Array_sort_compareFn_None (columnId : string) (sign : Z) (rows : list Row) :
  Array_sort (compareFn columnId sign) rows = None
  ↔ (2 ≤ length rows)%nat ∧ (columnId ∉ Object_prototype)
    ∧ ∃ row, row ∈ rows ∧ row !! columnId = None.
Proof.
  split.
  - intros Hs. split; [|split].
    + destruct (decide (length rows < 2)%nat) as [Hshort|]; [|lia].
      by rewrite Array_sort_short in Hs.
    + intros Hin.
      destruct (Array_sort_is_Some (compareFn columnId sign) (λ _, True) rows)
        as [? Hsome]; [|by apply Forall_forall|congruence].
      intros a b _ _. apply compareFn_is_Some_iff. by left.
    + destruct (decide (Forall (λ row : Row, is_Some (row !! columnId)) rows))
        as [Hall|Hnot].
      { destruct (Array_sort_is_Some (compareFn columnId sign)
                    (λ row, is_Some (row !! columnId)) rows) as [? Hsome];
          [by intros; apply compareFn_is_Some|done|congruence]. }
      apply not_Forall_Exists in Hnot; [|apply _].
      apply Exists_exists in Hnot as (row & Hrow & Hnone).
      exists row. split; [done|]. by apply eq_None_not_Some.
  - intros (Hlen & Hout & row & Hrow & Hnone).
    apply (Array_sort_uncomparable _ (λ row, row !! columnId = None)); [|done|].
    + intros a b. by apply compareFn_None.
    + apply Exists_exists. eauto.
Qed.

(** X1: [_sort] throws exactly when the backing dataset has two or more rows,
    one of them has no cell for the column, and the column id is not one of
    the names a row inherits from [Object.prototype] (for those the missing
    cell reads as an object without a value, and nothing throws). The error
    is a [TypeError] and the state, the array included, is as it was. A
    dataset of fewer than two rows is never compared, so it sorts whatever
    cells it has. *)
Theorem _sort_throws_iff_missing_cell (st : State) (columnId : string)
    (direction : option SortDirection) (rows : list Row) :
  heap st !! originalData st = Some rows →
  (_sort columnId direction st = Throws TypeError st
   ↔ (2 ≤ length rows)%nat ∧ (columnId ∉ Object_prototype)
     ∧ ∃ row, row ∈ rows ∧ row !! columnId = None)
  ∧ ∀ e st', _sort columnId direction st = Throws e st' → e = TypeError ∧ st' = st.
Proof.
  intros Hrows. rewrite _sort_unfold, (rows_at_lookup _ _ _ Hrows).
  rewrite <- (Array_sort_compareFn_None columnId (sign_of direction)). split.
  - destruct (Array_sort _ rows); split; done.
  - intros e st'. destruct (Array_sort _ _); [done|]. by intros [= <- <-].
Qed.

Lemma _sort_throws_iff_missing_cell_witness :
  (_sort "zip" (Some asc) (loaded_table name_age people)
   = Throws TypeError (loaded_table name_age people)
   ↔ (2 ≤ length people)%nat ∧ ("zip" ∉ Object_prototype)
     ∧ ∃ row, row ∈ people ∧ row !! "zip" = None)
  ∧ ∀ e st', _sort "zip" (Some asc) (loaded_table name_age people) = Throws e st' →
      e = TypeError ∧ st' = loaded_table name_age people.
Proof.
  apply (_sort_throws_iff_missing_cell (loaded_table name_age people) "zip"
           (Some asc) people).
  reflexivity.
Defined.

(** X2: a backing dataset that is already in order for the direction (each
    row may stay before every later row, ties included) is left exactly as it
    is: [_sort] returns and the state does not change. *)
Theorem _sort_leaves_sorted_rows (st : State) (columnId : string)
    (direction : option SortDirection) (rows : list Row) :
  heap st !! originalData st = Some rows →
  StronglySorted (precedes (compareFn columnId (sign_of direction))) rows →
  _sort columnId direction st = Returns (originalData st) st.
Proof.
  intros Hrows Hsorted. rewrite _sort_unfold, (rows_at_lookup _ _ _ Hrows).
  by rewrite (Array_sort_sorted_input _ _ Hsorted), (set_heap_insert_same _ _ _ Hrows).
Qed.

Lemma _sort_leaves_sorted_rows_witness :
  _sort "c" (Some asc) (loaded_table column_c tied_rows)
  = Returns (originalData (loaded_table column_c tied_rows))
            (loaded_table column_c tied_rows).
Proof.
  apply (_sort_leaves_sorted_rows (loaded_table column_c tied_rows) "c" (Some asc)
           tied_rows).
  - reflexivity.
  - repeat constructor. exists 0. split; [reflexivity|lia].
Defined.

(** X3: when every row has the cell and the callback is transitive on the
    rows, [_sort] returns and the array it leaves is in order for the
    direction: the callback never asks to move a later row before an earlier
    one. *)
Theorem _sort_orders_consistent_rows (st : State) (columnId : string)
    (direction : option SortDirection) (rows : list Row) :
  heap st !! originalData st = Some rows →
  (∀ row, row ∈ rows → is_Some (row !! columnId)) →
  consistent columnId rows →
  ∃ sorted,
    _sort columnId direction st
    = Returns (originalData st) (set_heap <[originalData st := sorted]> st)
    ∧ ∀ (i j : nat) a b, (i < j)%nat → sorted !! i = Some a → sorted !! j = Some b →
        ∃ c, compareFn columnId (sign_of direction) a b = Some c ∧ c ≤ 0.
Proof.
  intros Hrows Hkeys Hcons.
  destruct (_sort_sorted st columnId direction rows Hrows Hkeys Hcons)
    as (sorted & Hs & _ & Hss).
  exists sorted. split; [done|]. intros i j a b Hij Hi Hj.
  apply (StronglySorted_lookup _ _ _ _ _ _ Hss Hij Hi Hj).
Qed.

(** X4: under the same conditions sorting a second time in the same
    direction changes nothing: the second [_sort] returns the state the first
    one left. *)
Theorem _sort_twice_same_direction (st : State) (columnId : string)
    (direction : option SortDirection) (rows : list Row) :
  heap st !! originalData st = Some rows →
  (∀ row, row ∈ rows → is_Some (row !! columnId)) →
  consistent columnId rows →
  ∃ st1,
    _sort columnId direction st = Returns (originalData st) st1
    ∧ _sort columnId direction st1 = Returns (originalData st) st1.
Proof.
  intros Hrows Hkeys Hcons.
  destruct (_sort_sorted st columnId direction rows Hrows Hkeys Hcons)
    as (sorted & Hs & _ & Hss).
  eexists. split; [done|].
  rewrite _sort_unfold. simpl. rewrite rows_at_set_heap_insert.
  rewrite (Array_sort_sorted_input _ _ Hss).
  f_equal. unfold set_heap. simpl. by rewrite insert_insert_eq.
Qed.

Lemma String_compare_le_trans (a b c : string) :
  String.compare a b ≠ Gt → String.compare b c ≠ Gt → String.compare a c ≠ Gt.
Proof.
  revert b c. induction a as [|x a IH]; intros [|y b] [|z c]; simpl; try done.
  unfold Ascii.compare.
  destruct (N.compare_spec (N_of_ascii x) (N_of_ascii y)),
    (N.compare_spec (N_of_ascii y) (N_of_ascii z)),
    (N.compare_spec (N_of_ascii x) (N_of_ascii z)); try done; try lia.
  apply IH.
Qed.

Lemma String_ltb_false (a b : string) :
  String.ltb b a = false ↔ String.compare a b ≠ Gt.
Proof.
  unfold String.ltb. rewrite (String.compare_antisym a b).
  destruct (String.compare b a); simpl; naive_solver.
Qed.

Lemma String_ltb_false_trans (a b c : string) :
  String.ltb b a = false → String.ltb c b = false → String.ltb c a = false.
Proof. rewrite !String_ltb_false. apply String_compare_le_trans. Qed.

Lemma compareValues_textual (valA valB : string) :
  canCastToNumber valA && canCastToNumber valB = false →
  compareValues 1 valA valB ≤ 0 ↔ String.ltb valB valA = false.
Proof.
  intros Hc. unfold compareValues. rewrite Hc. cbn -[String.ltb].
  destruct (String.ltb valA valB) eqn:Hlt.
  - rewrite (String_ltb_asym _ _ Hlt). split; [done|lia].
  - destruct (String.ltb valB valA); split; (done || lia).
Qed.

Lemma textual_column_consistent (columnId : string) (rows : list Row) :
  textual_column columnId rows → consistent columnId rows.
Proof.
  intros Htxt a b c Ha Hb Hc.
  destruct (Htxt a Ha) as (va & Hva & Hna), (Htxt b Hb) as (vb & Hvb & Hnb),
    (Htxt c Hc) as (vc & Hvc & Hnc).
  unfold precedes.
  rewrite (compareFn_values _ _ _ _ _ _ Hva Hvb), (compareFn_values _ _ _ _ _ _ Hvb Hvc),
    (compareFn_values _ _ _ _ _ _ Hva Hvc).
  intros (z1 & [= <-] & H1) (z2 & [= <-] & H2). eexists. split; [done|].
  apply compareValues_textual in H1, H2; [|by rewrite ?Hna, ?Hnb..].
  apply compareValues_textual; [by rewrite Hna|].
  by apply String_ltb_false_trans with vb.
Qed.

Lemma column_has_cells (columnId : string) (rows : list Row) (P : string → Prop) :
  (∀ row, row ∈ rows → ∃ v, has_value columnId row v ∧ P v) →
  ∀ row, row ∈ rows → is_Some (row !! columnId).
Proof.
  intros H row Hrow. destruct (H row Hrow) as (v & Hv & _).
  by apply has_value_is_Some with v.
Qed.

(** X5: in a column whose values all match the numeric pattern, the
    ascending sort leaves the numbers in non-decreasing order and the
    descending sort in non-increasing order. *)
Theorem numeric_column_sorted_by_number (st : State) (columnId : string)
    (rows : list Row) :
  heap st !! originalData st = Some rows →
  numeric_column columnId rows →
  (∃ sorted,
     _sort columnId (Some asc) st
     = Returns (originalData st) (set_heap <[originalData st := sorted]> st)
     ∧ ∀ (i j : nat) a b va vb, (i < j)%nat →
         sorted !! i = Some a → sorted !! j = Some b →
         has_value columnId a va → has_value columnId b vb →
         number_ltb (Number (removeCommas vb)) (Number (removeCommas va)) = false)
  ∧ (∃ sorted,
       _sort columnId (Some desc) st
       = Returns (originalData st) (set_heap <[originalData st := sorted]> st)
       ∧ ∀ (i j : nat) a b va vb, (i < j)%nat →
           sorted !! i = Some a → sorted !! j = Some b →
           has_value columnId a va → has_value columnId b vb →
           number_ltb (Number (removeCommas va)) (Number (removeCommas vb)) = false).
Proof.
  intros Hrows Hnum.
  pose proof (column_has_cells _ _ _ Hnum) as Hkeys.
  pose proof (numeric_column_consistent _ _ Hnum) as Hcons.
  assert (∀ sorted a va, sorted ≡ₚ rows → a ∈ sorted → has_value columnId a va →
            canCastToNumber va = true) as Hcast.
  { intros sorted a va Hperm Ha Hva. rewrite Hperm in Ha.
    destruct (Hnum a Ha) as (v & Hv & Hc). unfold has_value in *. congruence. }
  split.
  - destruct (_sort_sorted st columnId (Some asc) rows Hrows Hkeys Hcons)
      as (sorted & Hs & Hperm & Hss).
    exists sorted. split; [done|]. intros i j a b va vb Hij Hi Hj Hva Hvb.
    destruct (StronglySorted_lookup _ _ _ _ _ _ Hss Hij Hi Hj) as (c & Hc & Hle).
    simpl in Hc. rewrite (compareFn_values _ _ _ _ _ _ Hva Hvb) in Hc.
    injection Hc as <-. apply compareValues_numeric in Hle; [done|..].
    + apply (Hcast sorted a); [done| |done]. by apply list_elem_of_lookup_2 with i.
    + apply (Hcast sorted b); [done| |done]. by apply list_elem_of_lookup_2 with j.
  - destruct (_sort_sorted st columnId (Some desc) rows Hrows Hkeys Hcons)
      as (sorted & Hs & Hperm & Hss).
    exists sorted. split; [done|]. intros i j a b va vb Hij Hi Hj Hva Hvb.
    pose proof (StronglySorted_lookup _ _ _ _ _ _ Hss Hij Hi Hj) as Hp.
    simpl in Hp. apply precedes_descending in Hp as (c & Hc & Hle).
    rewrite (compareFn_values _ _ _ _ _ _ Hvb Hva) in Hc.
    injection Hc as <-. apply compareValues_numeric in Hle; [done|..].
    + apply (Hcast sorted b); [done| |done]. by apply list_elem_of_lookup_2 with j.
    + apply (Hcast sorted a); [done| |done]. by apply list_elem_of_lookup_2 with i.
Qed.

(** X6: in a column where no value matches the numeric pattern, the
    ascending sort leaves the strings in non-decreasing lexicographic order
    and the descending sort in non-increasing order. *)
Theorem textual_column_sorted_by_string (st : State) (columnId : string)
    (rows : list Row) :
  heap st !! originalData st = Some rows →
  textual_column columnId rows →
  (∃ sorted,
     _sort columnId (Some asc) st
     = Returns (originalData st) (set_heap <[originalData st := sorted]> st)
     ∧ ∀ (i j : nat) a b va vb, (i < j)%nat →
         sorted !! i = Some a → sorted !! j = Some b →
         has_value columnId a va → has_value columnId b vb →
         String.ltb vb va = false)
  ∧ (∃ sorted,
       _sort columnId (Some desc) st
       = Returns (originalData st) (set_heap <[originalData st := sorted]> st)
       ∧ ∀ (i j : nat) a b va vb, (i < j)%nat →
           sorted !! i = Some a → sorted !! j = Some b →
           has_value columnId a va → has_value columnId b vb →
           String.ltb va vb = false).
Proof.
  intros Hrows Htxt.
  pose proof (column_has_cells _ _ _ Htxt) as Hkeys.
  pose proof (textual_column_consistent _ _ Htxt) as Hcons.
  assert (∀ sorted a va, sorted ≡ₚ rows → a ∈ sorted → has_value columnId a va →
            canCastToNumber va = false) as Hcast.
  { intros sorted a va Hperm Ha Hva. rewrite Hperm in Ha.
    destruct (Htxt a Ha) as (v & Hv & Hc). unfold has_value in *. congruence. }
  split.
  - destruct (_sort_sorted st columnId (Some asc) rows Hrows Hkeys Hcons)
      as (sorted & Hs & Hperm & Hss).
    exists sorted. split; [done|]. intros i j a b va vb Hij Hi Hj Hva Hvb.
    destruct (StronglySorted_lookup _ _ _ _ _ _ Hss Hij Hi Hj) as (c & Hc & Hle).
    simpl in Hc. rewrite (compareFn_values _ _ _ _ _ _ Hva Hvb) in Hc.
    injection Hc as <-. apply compareValues_textual in Hle; [done|].
    rewrite (Hcast sorted a va); [done..| |done]. by apply list_elem_of_lookup_2 with i.
  - destruct (_sort_sorted st columnId (Some desc) rows Hrows Hkeys Hcons)
      as (sorted & Hs & Hperm & Hss).
    exists sorted. split; [done|]. intros i j a b va vb Hij Hi Hj Hva Hvb.
    pose proof (StronglySorted_lookup _ _ _ _ _ _ Hss Hij Hi Hj) as Hp.
    simpl in Hp. apply precedes_descending in Hp as (c & Hc & Hle).
    rewrite (compareFn_values _ _ _ _ _ _ Hvb Hva) in Hc.
    injection Hc as <-. apply compareValues_textual in Hle; [done|].
    rewrite (Hcast sorted b vb); [done..| |done]. by apply list_elem_of_lookup_2 with j.
Qed.

(** X7: the comparison callback is antisymmetric. Swapping the two rows
    negates the result, the descending callback is the negation of the
    ascending one, a row compares equal to itself, and the result is one of
    [-sign], [0] and [sign]. The callback returns exactly when both rows have
    the cell or the column id is a name the rows inherit from
    [Object.prototype]; with an inherited name, a row without the cell
    compares equal to every row. *)
Theorem compareFn_antisymmetric (columnId : string) (sign : Z) (a b : Row) :
  compareFn columnId sign b a = Z.opp <$> compareFn columnId sign a b
  ∧ compareFn columnId (-1) a b = Z.opp <$> compareFn columnId 1 a b
  ∧ (∀ z, compareFn columnId sign a a = Some z → z = 0)
  ∧ (∀ z, compareFn columnId sign a b = Some z → z = - sign ∨ z = 0 ∨ z = sign)
  ∧ (is_Some (compareFn columnId sign a b)
     ↔ columnId ∈ Object_prototype
       ∨ (is_Some (a !! columnId) ∧ is_Some (b !! columnId)))
  ∧ (columnId ∈ Object_prototype →
     a !! columnId = None ∨ b !! columnId = None →
     compareFn columnId sign a b = Some 0).
Proof.
  split; [apply compareFn_swap|]. split; [apply compareFn_descending|].
  split; [apply compareFn_refl|]. split; [|split].
  - unfold compareFn.
    destruct (cell_value columnId a) as [va|]; [|done].
    destruct (cell_value columnId b) as [vb|]; [|done].
    cbn -[js_lt js_gt]. intros z [= <-]. repeat case_match; lia.
  - apply compareFn_is_Some_iff.
  - apply compareFn_undefined.
Qed.

(** X8: for two values that match the numeric pattern and denote integers
    below 2^53, the callback is the exact comparison of the two integers:
    commas and leading zeros do not matter. *)
Theorem compareValues_exact_below_2_53 (sign : Z) (valA valB : string) (n m : N) :
  canCastToNumber valA = true → canCastToNumber valB = true →
  digits_value 0 (removeCommas valA) = Some n →
  digits_value 0 (removeCommas valB) = Some m →
  (n < 2 ^ 53)%N → (m < 2 ^ 53)%N →
  compareValues sign valA valB
  = match (n ?= m)%N with Lt => sign * -1 | Gt => sign | Eq => 0 end.
Proof.
  intros Ha Hb Hn Hm Hnb Hmb. unfold compareValues, Number.
  rewrite Ha, Hb, Hn, Hm. cbn -[round_to_double].
  unfold round_to_double.
  rewrite (proj2 (N.ltb_lt n _) Hnb), (proj2 (N.ltb_lt m _) Hmb). simpl.
  destruct (N.compare_spec n m) as [->|Hlt|Hgt].
  - by rewrite N.ltb_irrefl.
  - by rewrite (proj2 (N.ltb_lt n m) Hlt).
  - rewrite (proj2 (N.ltb_ge n m)) by lia. by rewrite (proj2 (N.ltb_lt m n) Hgt).
Qed.

Lemma compareValues_exact_below_2_53_witness :
  compareValues 1 "1,000" "0999"
  = match (1000 ?= 999)%N with Lt => 1 * -1 | Gt => 1 | Eq => 0 end.
Proof.
  apply (compareValues_exact_below_2_53 1 "1,000" "0999" 1000 999);
    reflexivity.
Defined.

Lemma _sort_orders_consistent_rows_witness :
  ∃ sorted,
    _sort "age" (Some desc) (loaded_table name_age people)
    = Returns (originalData (loaded_table name_age people))
        (set_heap <[originalData (loaded_table name_age people) := sorted]>
                  (loaded_table name_age people))
    ∧ ∀ (i j : nat) a b, (i < j)%nat → sorted !! i = Some a → sorted !! j = Some b →
        ∃ c, compareFn "age" (sign_of (Some desc)) a b = Some c ∧ c ≤ 0.
Proof.
  apply (_sort_orders_consistent_rows (loaded_table name_age people) "age"
           (Some desc) people).
  - reflexivity.
  - apply people_have_age.
  - apply numeric_column_consistent, people_age_numeric.
Defined.

Lemma _sort_twice_same_direction_witness :
  ∃ st1,
    _sort "age" (Some asc) (loaded_table name_age people)
    = Returns (originalData (loaded_table name_age people)) st1
    ∧ _sort "age" (Some asc) st1
      = Returns (originalData (loaded_table name_age people)) st1.
Proof.
  apply (_sort_twice_same_direction (loaded_table name_age people) "age"
           (Some asc) people).
  - reflexivity.
  - apply people_have_age.
  - apply numeric_column_consistent, people_age_numeric.
Defined.

Lemma numeric_column_sorted_by_number_witness :
  let st := loaded_table name_age people in
  (∃ sorted,
     _sort "age" (Some asc) st
     = Returns (originalData st) (set_heap <[originalData st := sorted]> st)
     ∧ ∀ (i j : nat) a b va vb, (i < j)%nat →
         sorted !! i = Some a → sorted !! j = Some b →
         has_value "age" a va → has_value "age" b vb →
         number_ltb (Number (removeCommas vb)) (Number (removeCommas va)) = false)
  ∧ (∃ sorted,
       _sort "age" (Some desc) st
       = Returns (originalData st) (set_heap <[originalData st := sorted]> st)
       ∧ ∀ (i j : nat) a b va vb, (i < j)%nat →
           sorted !! i = Some a → sorted !! j = Some b →
           has_value "age" a va → has_value "age" b vb →
           number_ltb (Number (removeCommas va)) (Number (removeCommas vb)) = false).
Proof.
  apply (numeric_column_sorted_by_number (loaded_table name_age people) "age" people).
  - reflexivity.
  - apply people_age_numeric.
Defined.

Lemma textual_column_sorted_by_string_witness :
  let st := loaded_table name_age people in
  (∃ sorted,
     _sort "name" (Some asc) st
     = Returns (originalData st) (set_heap <[originalData st := sorted]> st)
     ∧ ∀ (i j : nat) a b va vb, (i < j)%nat →
         sorted !! i = Some a → sorted !! j = Some b →
         has_value "name" a va → has_value "name" b vb →
         String.ltb vb va = false)
  ∧ (∃ sorted,
       _sort "name" (Some desc) st
       = Returns (originalData st) (set_heap <[originalData st := sorted]> st)
       ∧ ∀ (i j : nat) a b va vb, (i < j)%nat →
           sorted !! i = Some a → sorted !! j = Some b →
           has_value "name" a va → has_value "name" b vb →
           String.ltb va vb = false).
Proof.
  apply (textual_column_sorted_by_string (loaded_table name_age people) "name" people).
  - reflexivity.
  - apply people_name_textual.
Defined.

(** ** The table after [setHeader] and [setData] *)

Lemma all_th_app (children children' : list Node) :
  all_th (children ++ children') = all_th children ++ all_th children'.
Proof.
  induction children as [|[tr|trs] rest IH]; simpl; [done| |done].
  by rewrite IH, (assoc (++)).
Qed.

Lemma all_th_map_th (f : Th → Th) (children : list Node) :
  all_th (map_th f children) = f <$> all_th children.
Proof.
  unfold map_th. induction children as [|[tr|trs] rest IH]; csimpl; [done| |done].
  by rewrite fmap_app, IH.
Qed.


Lemma find_index_Some {A} (p : A → bool) (l : list A) (j : nat) :
  find_index p l = Some j →
  ∃ x, l !! j = Some x ∧ p x = true
       ∧ ∀ (j' : nat) y, (j' < j)%nat → l !! j' = Some y → p y = false.
Proof.
  revert j. induction l as [|x l IH]; intros j; simpl; [done|].
  destruct (p x) eqn:Hp.
  - intros [= <-]. exists x. repeat split; [done|]. intros; lia.
  - destruct (find_index p l) as [j0|]; [|done]. intros [= <-].
    destruct (IH j0 eq_refl) as (y & Hy & Hpy & Hfirst).
    exists y. repeat split; [done..|].
    intros [|j'] z Hlt Hz; simpl in Hz; [by simplify_eq|].
    apply (Hfirst j'); [lia|done].
Qed.

Lemma find_index_None {A} (p : A → bool) (l : list A) :
  find_index p l = None → ∀ x, x ∈ l → p x = false.
Proof.
  induction l as [|x l IH]; simpl; [by intros _ y Hy; apply elem_of_nil in Hy|].
  destruct (p x) eqn:Hp; [done|].
  destruct (find_index p l); [done|]. intros _ y Hy.
  apply elem_of_cons in Hy as [->|Hy]; [done|by apply IH].
Qed.

Lemma find_index_is_Some {A} (p : A → bool) (l : list A) (x : A) :
  x ∈ l → p x = true → is_Some (find_index p l).
Proof.
  intros Hx Hp. destruct (find_index p l) eqn:Hf; [eauto|].
  by rewrite (find_index_None p l Hf x Hx) in Hp.
Qed.

(** The cell [first_th] selects, as a position among all header cells. *)
Lemma first_th_Some (p : Th → bool) (i : nat) (children : list Node) (ref : ThRef) :
  first_th p i children = Some ref →
  (i ≤ ref.1)%nat
  ∧ ∃ k th,
      all_th children !! k = Some th ∧ p th = true
      ∧ (∀ (k' : nat) th', (k' < k)%nat → all_th children !! k' = Some th' →
           p th' = false)
      ∧ ∀ f g, all_th (alter_th f ((ref.1 - i)%nat, ref.2) (map_th g children))
               = alter f k (g <$> all_th children).
Proof.
  revert i. induction children as [|[tr|trs] rest IH]; intros i; simpl; [done| |].
  - destruct (find_index p tr) as [j|] eqn:Hj.
    + intros [= <-]. simpl. split; [lia|].
      destruct (find_index_Some _ _ _ Hj) as (th & Hth & Hp & Hfirst).
      exists j, th. pose proof (lookup_lt_Some _ _ _ Hth) as Hlen.
      split; [by rewrite lookup_app_l|]. split; [done|]. split.
      * intros k' th' Hlt. rewrite lookup_app_l by lia. by apply Hfirst.
      * intros f g. replace (i - i)%nat with 0%nat by lia. unfold alter_th. csimpl.
        rewrite fmap_app, alter_app_l by (by rewrite length_fmap).
        f_equal. apply all_th_map_th.
    + intros Href. destruct (IH (S i) Href) as (Hle & k & th & Hth & Hp & Hfirst & Halter).
      split; [lia|]. exists (length tr + k)%nat, th.
      split; [by rewrite lookup_app_r, Nat.add_comm, Nat.add_sub by lia|].
      split; [done|]. split.
      * intros k' th' Hlt Hk'. destruct (decide (k' < length tr)%nat) as [Hin|Hout].
        -- rewrite lookup_app_l in Hk' by done.
           apply (find_index_None p tr Hj). by apply list_elem_of_lookup_2 with k'.
        -- rewrite lookup_app_r in Hk' by lia. apply (Hfirst (k' - length tr)%nat); [lia|done].
      * intros f g. replace (ref.1 - i)%nat with (S (ref.1 - S i)) by lia.
        unfold alter_th in *. csimpl. specialize (Halter f g). simpl in Halter.
        rewrite fmap_app. rewrite <- (length_fmap g tr), alter_app_r.
        f_equal. apply Halter.
  - intros Href. destruct (IH (S i) Href) as (Hle & k & th & Hth & Hp & Hfirst & Halter).
    split; [lia|]. exists k, th. repeat split; [done..|].
    intros f g. replace (ref.1 - i)%nat with (S (ref.1 - S i)) by lia.
    unfold alter_th in *. csimpl. by apply Halter.
Qed.

Lemma first_th_None (p : Th → bool) (i : nat) (children : list Node) :
  first_th p i children = None → ∀ th, th ∈ all_th children → p th = false.
Proof.
  revert i. induction children as [|[tr|trs] rest IH]; intros i; simpl.
  - intros _ th Hth. by apply elem_of_nil in Hth.
  - destruct (find_index p tr) as [j|] eqn:Hj; [done|]. intros Hnone th Hth.
    apply elem_of_app in Hth as [Hth|Hth]; [by apply (find_index_None p tr)|].
    by apply (IH (S i)).
  - apply IH.
Qed.

Lemma first_th_is_Some (p : Th → bool) (i : nat) (children : list Node) (th : Th) :
  th ∈ all_th children → p th = true → is_Some (first_th p i children).
Proof.
  intros Hth Hp. destruct (first_th p i children) eqn:Hf; [eauto|].
  by rewrite (first_th_None p i children Hf th Hth) in Hp.
Qed.

Lemma map_th_id (children : list Node) : map_th (λ th, th) children = children.
Proof.
  unfold map_th. induction children as [|[tr|trs] rest IH]; csimpl; [done|..].
  - by rewrite list_fmap_id, IH.
  - by rewrite IH.
Qed.

Lemma first_th_0 (p : Th → bool) (children : list Node) (ref : ThRef) :
  first_th p 0 children = Some ref →
  ∃ k th,
    all_th children !! k = Some th ∧ p th = true
    ∧ (∀ (k' : nat) th', (k' < k)%nat → all_th children !! k' = Some th' → p th' = false)
    ∧ (∀ f, all_th (alter_th f ref children) = alter f k (all_th children))
    ∧ ∀ f g, all_th (alter_th f ref (map_th g children))
             = alter f k (g <$> all_th children).
Proof.
  intros Href. destruct (first_th_Some _ _ _ _ Href) as (_ & k & th & Hk & Hp & Hf & Ha).
  exists k, th. rewrite Nat.sub_0_r in Ha.
  replace (ref.1, ref.2) with ref in Ha by (by destruct ref).
  repeat split; [done..| |done].
  intros f. specialize (Ha f (λ th, th)). by rewrite map_th_id, list_fmap_id in Ha.
Qed.

(** ** Rendering the header *)

Lemma setupEventListner_unfold (st : State) :
  setupEventListner st
  = Returns () (set_tableElement
                  (λ children, foldl (install_listener (document st)) children (header st))
                  st).
Proof. reflexivity. Qed.

Lemma setHeader_unfold (columns : list Column) (st : State) :
  setHeader (Some columns) st
  = Returns ()
      (mkState (foldl (install_listener (document st))
                      (tableElement st ++ [thead (render_th <$> columns)]) columns)
               columns (columnIds st ++ (id <$> columns)) (originalData st)
               (displayData st) (selectedColumnId st) (heap st) (document st)).
Proof. reflexivity. Qed.

Lemma th_cell_make_sortable (th : Th) : th_cell (make_sortable th) = th_cell th.
Proof. reflexivity. Qed.

Lemma node_cells_alter_th (f : Th → Th) (ref : ThRef) (children : list Node) :
  (∀ th, th_cell (f th) = th_cell th) →
  node_cells <$> alter_th f ref children = node_cells <$> children.
Proof.
  intros Hf. unfold alter_th. destruct ref as [i j]. simpl. revert i.
  induction children as [|node rest IH]; intros [|i]; csimpl; try done.
  - f_equal. destruct node as [tr|trs]; [|done]. simpl. f_equal. clear IH.
    revert j. induction tr as [|th tr IH]; intros [|j]; csimpl; try done.
    + by rewrite Hf.
    + f_equal. apply IH.
  - f_equal. apply IH.
Qed.

Lemma node_cells_install_listener (doc : Document) (children : list Node)
    (column : Column) :
  node_cells <$> install_listener doc children column = node_cells <$> children.
Proof.
  unfold install_listener. destruct (getElementById _ _ _) as [[ref|]|]; [|done..].
  destruct (sortable column); [|done]. by apply node_cells_alter_th.
Qed.

Lemma node_cells_install_listeners (doc : Document) (columns : list Column)
    (children : list Node) :
  node_cells <$> foldl (install_listener doc) children columns = node_cells <$> children.
Proof.
  revert children. induction columns as [|column columns IH]; intros children; [done|].
  simpl. by rewrite IH, node_cells_install_listener.
Qed.

Lemma th_cell_render_th (column : Column) : th_cell (render_th column) = column_cell column.
Proof. reflexivity. Qed.

(** X9: [setHeader] with a header always returns and appends exactly one
    header row after what the table held: one cell per column, in order, with
    the column's id as id and [data-id], its label as text and the [sortable]
    attribute when the column is sortable. The header is replaced, the column
    ids are appended to [columnIds], and the datasets and the selection are
    untouched. *)
Theorem setHeader_appends_one_header_row (columns : list Column) (st : State) :
  ∃ st',
    setHeader (Some columns) st = Returns () st'
    ∧ node_cells <$> tableElement st'
      = (node_cells <$> tableElement st) ++ [inl (column_cell <$> columns)]
    ∧ header st' = columns
    ∧ columnIds st' = columnIds st ++ (id <$> columns)
    ∧ originalData st' = originalData st ∧ displayData st' = displayData st
    ∧ selectedColumnId st' = selectedColumnId st ∧ heap st' = heap st.
Proof.
  eexists. split; [apply setHeader_unfold|]. simpl. repeat split.
  rewrite node_cells_install_listeners, fmap_app. simpl. do 3 f_equal.
  rewrite <- list_fmap_compose. by apply list_fmap_ext.
Qed.

Lemma sum_list_alter_listeners (f : Th → Th) (k : nat) (ths : list Th) (th : Th) :
  ths !! k = Some th →
  th_clickListeners (f th) = S (th_clickListeners th) →
  sum_list_with th_clickListeners (alter f k ths)
  = S (sum_list_with th_clickListeners ths).
Proof.
  revert k. induction ths as [|th0 ths IH]; intros [|k] Hk Hf; simplify_eq/=.
  - by rewrite Hf.
  - rewrite (IH k Hk Hf). lia.
Qed.

Lemma all_th_cells (children : list Node) :
  th_cell <$> all_th children
  = (node_cells <$> children) ≫= λ cells, match cells with inl c => c | inr _ => [] end.
Proof.
  induction children as [|[tr|trs] rest IH]; csimpl; [done| |done].
  by rewrite fmap_app, IH.
Qed.

Lemma th_ids_install_listener (doc : Document) (children : list Node) (column : Column) :
  th_id <$> all_th (install_listener doc children column) = th_id <$> all_th children.
Proof.
  change th_id with (λ th, (th_cell th).1.1.1).
  rewrite !(list_fmap_compose th_cell (λ c, c.1.1.1)), !all_th_cells.
  by rewrite node_cells_install_listener.
Qed.

Lemma all_tbody_app (children children' : list Node) :
  all_tbody (children ++ children') = all_tbody children ++ all_tbody children'.
Proof.
  induction children as [|[tr|trs] rest IH]; simpl; [done..|]. by rewrite IH.
Qed.

Lemma all_tbody_alter_th (f : Th → Th) (ref : ThRef) (children : list Node) :
  all_tbody (alter_th f ref children) = all_tbody children.
Proof.
  unfold alter_th. destruct ref as [i j]. simpl. revert i.
  induction children as [|[tr|trs] rest IH]; intros [|i]; csimpl; try done.
  all: first [apply IH | f_equal; apply IH].
Qed.

Lemma all_tbody_install_listener (doc : Document) (children : list Node)
    (column : Column) :
  all_tbody (install_listener doc children column) = all_tbody children.
Proof.
  unfold install_listener. destruct (getElementById _ _ _) as [[ref|]|]; [|done..].
  destruct (sortable column); [|done]. apply all_tbody_alter_th.
Qed.

Lemma listener_columns_one (column : Column) :
  length (listener_columns [column])
  = if sortable column && negb (bool_decide (id column = EmptyString)) then 1%nat else 0%nat.
Proof.
  unfold listener_columns. rewrite filter_cons, filter_nil.
  destruct (decide (sortable column = true ∧ id column ≠ EmptyString)) as [[Hs Hne]|Hn].
  - by rewrite Hs, bool_decide_eq_false_2.
  - destruct (sortable column), (bool_decide (id column = EmptyString)) eqn:Hb;
      simpl; try done.
    destruct Hn. split; [done|]. by apply bool_decide_eq_false in Hb.
Qed.

(** Where no body cell holds markup with the id, the search under the table
    is the search among its header cells. *)
Lemma first_with_id_header_cell (doc : Document) (elementId : string) (i : nat)
    (children : list Node) :
  existsb (existsb (existsb (td_has_id doc elementId))) (all_tbody children) = false →
  first_with_id doc elementId i children
  = header_cell <$> first_th (λ th, bool_decide (th_id th = elementId)) i children.
Proof.
  revert i. induction children as [|[tr|trs] rest IH]; intros i Hno; simpl; [done| |].
  - destruct (find_index _ tr); [done|]. by apply IH.
  - simpl in Hno. apply orb_false_elim in Hno as [-> Hno]. by apply IH.
Qed.

Lemma click_listeners_install_listener (doc : Document) (children : list Node)
    (column : Column) :
  (sortable column = true → id column ≠ EmptyString →
     lands_in_header doc children column) →
  click_listeners (install_listener doc children column)
  = (click_listeners children + length (listener_columns [column]))%nat.
Proof.
  intros Hid. rewrite listener_columns_one. unfold install_listener, getElementById.
  destruct (decide (id column = EmptyString)) as [Hempty|Hne].
  { rewrite bool_decide_eq_true_2 by done. rewrite andb_false_r. lia. }
  rewrite (bool_decide_eq_false_2 (id column = EmptyString)) by done.
  rewrite andb_true_r.
  destruct (sortable column) eqn:Hs; [|by repeat case_match; lia].
  destruct (Hid eq_refl Hne) as (Hbefore & Hbody & Hin).
  rewrite bool_decide_eq_false_2 by done.
  rewrite (first_with_id_header_cell _ _ _ _ Hbody).
  apply list_elem_of_fmap in Hin as (th & Hth & Hin).
  destruct (first_th_is_Some (λ th, bool_decide (th_id th = id column)) 0 children th)
    as [ref Href]; [done|by apply bool_decide_eq_true_2|].
  rewrite Href. simpl.
  destruct (first_th_0 _ _ _ Href) as (k & th' & Hk & _ & _ & Halter & _).
  unfold click_listeners. rewrite Halter.
  rewrite (sum_list_alter_listeners _ _ _ th' Hk); [lia|done].
Qed.

Lemma click_listeners_install_listeners (doc : Document) (columns : list Column)
    (children : list Node) :
  (∀ column, column ∈ columns → sortable column = true → id column ≠ EmptyString →
     lands_in_header doc children column) →
  click_listeners (foldl (install_listener doc) children columns)
  = (click_listeners children + length (listener_columns columns))%nat.
Proof.
  revert children. induction columns as [|column columns IH]; intros children Hids.
  { unfold listener_columns. rewrite filter_nil. simpl. lia. }
  simpl. rewrite IH.
  - rewrite click_listeners_install_listener by (apply Hids; by left).
    unfold listener_columns. change (column :: columns) with ([column] ++ columns).
    rewrite (filter_app _ [column] columns), length_app. lia.
  - intros c Hc Hs Hne. destruct (Hids c) as (Hbefore & Hbody & Hin); [by right|done..|].
    unfold lands_in_header.
    by rewrite all_tbody_install_listener, th_ids_install_listener.
Qed.

(** X10: a call of [setHeader] adds one click listener to the header cells
    of the table for each sortable column with a non-empty id, and removes
    none, provided no element of the page that is not a header cell of the
    table carries such an id before those cells (an element before the
    table, or one in the markup of a body cell); else the listener of that
    column goes to that element. Under this condition the listeners in the
    table add up over repeated calls. *)
Theorem setHeader_adds_click_listeners (columns : list Column) (st : State) :
  (∀ column, column ∈ listener_columns columns →
     id_taken_elsewhere (id column) st = false) →
  click_listeners (tableElement (state_of (setHeader (Some columns) st)))
  = (click_listeners (tableElement st) + length (listener_columns columns))%nat.
Proof.
  intros Hfree. rewrite setHeader_unfold. simpl.
  rewrite click_listeners_install_listeners.
  - f_equal. unfold click_listeners. rewrite all_th_app, sum_list_with_app. simpl.
    rewrite app_nil_r.
    assert (sum_list_with th_clickListeners (render_th <$> columns) = 0%nat) as ->; [|lia].
    clear. induction columns as [|c cs IH]; [done|]. csimpl. by rewrite IH.
  - intros column Hc Hs Hne.
    assert (column ∈ listener_columns columns) as Hl
      by (by apply list_elem_of_filter).
    apply Hfree in Hl. unfold id_taken_elsewhere in Hl.
    apply orb_false_elim in Hl as [Hbefore Hbody].
    split; [by apply bool_decide_eq_false in Hbefore|]. split.
    + rewrite all_tbody_app. simpl. by rewrite app_nil_r.
    + rewrite all_th_app, fmap_app. apply elem_of_app. right.
      simpl. rewrite app_nil_r, <- list_fmap_compose.
      apply list_elem_of_fmap. by exists column.
Qed.

Lemma setHeader_adds_click_listeners_witness :
  click_listeners
    (tableElement (state_of (setHeader (Some name_age) (loaded_table name_age people))))
  = (click_listeners (tableElement (loaded_table name_age people))
     + length (listener_columns name_age))%nat.
Proof.
  apply (setHeader_adds_click_listeners name_age (loaded_table name_age people)).
  intros column Hcolumn. apply list_elem_of_filter in Hcolumn as [_ Hcolumn].
  unfold name_age in Hcolumn.
  repeat (apply elem_of_cons in Hcolumn as [->|Hcolumn]; [reflexivity|]).
  by apply elem_of_nil in Hcolumn.
Defined.

(** ** Rendering the body *)

Lemma setData_unfold (d : loc) (st : State) :
  setData (Some d) st
  = match mapM (render_tr (columnIds st)) (rows_at d st) with
    | None => Throws TypeError (set_displayData d (set_originalData d st))
    | Some trs =>
        Returns () (set_tableElement (λ children, children ++ [tbody trs])
                      (set_displayData d (set_originalData d st)))
    end.
Proof.
  unfold setData, mbind, M_bind, modify. rewrite renderData_unfold.
  by destruct (mapM _ _).
Qed.

Lemma render_td_Some (row : Row) (key : string) (td : Td) :
  render_td row key = Some td ↔ ∃ cell, row !! key = Some cell ∧ td = td_of cell.
Proof.
  unfold render_td, td_of. destruct (row !! key) as [cell|]; simpl.
  - split; [intros [= <-]; eauto|]. by intros (c & [= <-] & ->).
  - split; [done|]. by intros (c & [=] & _).
Qed.

Lemma render_tr_None (keys : list string) (row : Row) :
  render_tr keys row = None ↔ ∃ key, key ∈ keys ∧ row !! key = None.
Proof.
  unfold render_tr. rewrite mapM_None, Exists_exists.
  split; intros (key & Hkey & Hnone); exists key; (split; [done|]).
  - unfold render_td in Hnone. by destruct (row !! key).
  - unfold render_td. by rewrite Hnone.
Qed.

(** X11: when every row has a cell for every id in [columnIds], [setData]
    returns and appends one body after what the table held: one row per
    record in dataset order, one cell per column id in [columnIds] order, each
    holding the renderer's markup when the cell has a renderer and the plain
    value otherwise. The dataset becomes both the backing and the displayed
    one; header, column ids, selection and heap are untouched. *)
Theorem setData_renders_one_row_per_record (st : State) (d : loc) (rows : list Row) :
  heap st !! d = Some rows →
  (∀ row key, row ∈ rows → key ∈ columnIds st → is_Some (row !! key)) →
  ∃ st' trs,
    setData (Some d) st = Returns () st'
    ∧ tableElement st' = tableElement st ++ [tbody trs]
    ∧ Forall2 (λ row tr,
                 Forall2 (λ key td, ∃ cell, row !! key = Some cell ∧ td = td_of cell)
                         (columnIds st) tr)
              rows trs
    ∧ originalData st' = d ∧ displayData st' = d
    ∧ header st' = header st ∧ columnIds st' = columnIds st
    ∧ selectedColumnId st' = selectedColumnId st ∧ heap st' = heap st.
Proof.
  intros Hrows Hkeys. rewrite setData_unfold, (rows_at_lookup _ _ _ Hrows).
  destruct (mapM (render_tr (columnIds st)) rows) as [trs|] eqn:Htrs.
  - eexists _, trs. split; [done|]. simpl. repeat split.
    apply mapM_Some in Htrs. eapply Forall2_impl; [exact Htrs|].
    intros row tr Htr. apply mapM_Some in Htr.
    eapply Forall2_impl; [exact Htr|]. intros key td. by rewrite render_td_Some.
  - apply mapM_None, Exists_exists in Htrs as (row & Hrow & Hnone).
    apply render_tr_None in Hnone as (key & Hkey & Hnone).
    destruct (Hkeys row key Hrow Hkey) as [cell Hcell]. congruence.
Qed.

Lemma setData_renders_one_row_per_record_witness :
  ∃ st' trs,
    setData (Some 0%nat) (state_of (setHeader (Some name_age) (fresh_table people)))
    = Returns () st'
    ∧ tableElement st'
      = tableElement (state_of (setHeader (Some name_age) (fresh_table people)))
        ++ [tbody trs]
    ∧ Forall2 (λ row tr,
                 Forall2 (λ key td, ∃ cell, row !! key = Some cell ∧ td = td_of cell)
                         (columnIds (state_of (setHeader (Some name_age)
                                                 (fresh_table people)))) tr)
              people trs
    ∧ originalData st' = 0%nat ∧ displayData st' = 0%nat
    ∧ header st' = header (state_of (setHeader (Some name_age) (fresh_table people)))
    ∧ columnIds st'
      = columnIds (state_of (setHeader (Some name_age) (fresh_table people)))
    ∧ selectedColumnId st'
      = selectedColumnId (state_of (setHeader (Some name_age) (fresh_table people)))
    ∧ heap st' = heap (state_of (setHeader (Some name_age) (fresh_table people))).
Proof.
  apply (setData_renders_one_row_per_record
           (state_of (setHeader (Some name_age) (fresh_table people))) 0%nat people).
  - reflexivity.
  - intros row key Hrow Hkey. unfold people in Hrow. simpl in Hkey.
    repeat (apply elem_of_cons in Hrow as [->|Hrow]);
      try (by apply elem_of_nil in Hrow);
      repeat (apply elem_of_cons in Hkey as [->|Hkey]);
      try (by apply elem_of_nil in Hkey); by vm_compute; eauto.
Defined.

(** X12: [setData] throws exactly when some row lacks a cell for some id in
    [columnIds]. The error is a [TypeError], the table is left as it was, and
    the dataset has already been stored: [getTableData] returns it. *)
Theorem setData_throws_iff_missing_cell (st : State) (d : loc) (rows : list Row) :
  heap st !! d = Some rows →
  ((∃ row key, row ∈ rows ∧ key ∈ columnIds st ∧ row !! key = None)
   ↔ setData (Some d) st = Throws TypeError (set_displayData d (set_originalData d st)))
  ∧ ∀ e st', setData (Some d) st = Throws e st' →
      e = TypeError ∧ tableElement st' = tableElement st
      ∧ getTableData st' = Returns d st'.
Proof.
  intros Hrows. rewrite setData_unfold, (rows_at_lookup _ _ _ Hrows). split.
  - split.
    + intros (row & key & Hrow & Hkey & Hnone).
      rewrite (proj2 (mapM_None (render_tr (columnIds st)) rows)); [done|].
      apply Exists_exists. exists row. split; [done|]. apply render_tr_None. eauto.
    + destruct (mapM _ rows) eqn:Htrs; [done|]. intros _.
      apply mapM_None, Exists_exists in Htrs as (row & Hrow & Hnone).
      apply render_tr_None in Hnone as (key & Hkey & Hnone). eauto.
  - intros e st'. destruct (mapM _ rows); [done|]. by intros [= <- <-].
Qed.

Lemma setData_throws_iff_missing_cell_witness :
  let st := state_of (setHeader (Some name_age) (fresh_table tied_rows)) in
  ((∃ row key, row ∈ tied_rows ∧ key ∈ columnIds st ∧ row !! key = None)
   ↔ setData (Some 0%nat) st
     = Throws TypeError (set_displayData 0%nat (set_originalData 0%nat st)))
  ∧ ∀ e st', setData (Some 0%nat) st = Throws e st' →
      e = TypeError ∧ tableElement st' = tableElement st
      ∧ getTableData st' = Returns 0%nat st'.
Proof.
  apply (setData_throws_iff_missing_cell
           (state_of (setHeader (Some name_age) (fresh_table tied_rows)))
           0%nat tied_rows).
  reflexivity.
Defined.

(** ** What [sort] does to the table *)

Lemma sort_Returns_table (sel : string → option (Th → bool)) (columnId : string)
    (st st' : State) :
  sort sel columnId st = Returns () st' →
  ∃ matches colmunElement trs,
    sel columnId = Some matches
    ∧ first_th matches 0 (tableElement st) = Some colmunElement
    ∧ tableElement st'
      = tableElement (decided columnId colmunElement st) ++ [tbody trs]
    ∧ mapM (render_tr (columnIds st)) (rows_at (displayData st') st') = Some trs.
Proof.
  intros Hsort.
  destruct (sort_Returns_found _ _ _ _ Hsort) as (matches & el & Hsel & Hel & Hne & Hh).
  rewrite (sort_found _ _ _ _ _ Hsel Hel Hne Hh) in Hsort.
  exists matches, el. unfold mbind, M_bind in Hsort. rewrite _sort_unfold in Hsort.
  destruct (Array_sort _ _) as [sorted|]; [|done].
  unfold modify in Hsort. rewrite renderData_unfold in Hsort.
  destruct (mapM _ _) as [trs|] eqn:Htrs; [|done].
  injection Hsort as <-. exists trs. repeat split; [done..|].
  simpl in *. by rewrite <- Htrs.
Qed.





Lemma all_tbody_remove_first_tbody (children : list Node) :
  all_tbody (remove_first_tbody children) = tail (all_tbody children).
Proof. induction children as [|[tr|trs] rest IH]; simpl; done. Qed.

Lemma all_tbody_map_th (f : Th → Th) (children : list Node) :
  all_tbody (map_th f children) = all_tbody children.
Proof.
  unfold map_th. induction children as [|[tr|trs] rest IH]; csimpl; [done..|].
  by rewrite IH.
Qed.

Lemma all_tbody_decided (columnId : string) (colmunElement : ThRef) (st : State) :
  all_tbody (tableElement (decided columnId colmunElement st))
  = tail (all_tbody (tableElement st)).
Proof.
  unfold decided, clear_marks. simpl.
  by rewrite all_tbody_remove_first_tbody, all_tbody_alter_th, all_tbody_map_th.
Qed.

(** X14: a sort that returns removes the first body of the table, whichever
    dataset it showed, and appends a new last body that shows the displayed
    dataset row by row and column id by column id. *)
Theorem sort_replaces_the_first_body (sel : string → option (Th → bool))
    (columnId : string) (st st' : State) :
  sort sel columnId st = Returns () st' →
  ∃ trs,
    all_tbody (tableElement st') = tail (all_tbody (tableElement st)) ++ [trs]
    ∧ last (tableElement st') = Some (tbody trs)
    ∧ Forall2 (λ row tr,
                 Forall2 (λ key td, ∃ cell, row !! key = Some cell ∧ td = td_of cell)
                         (columnIds st') tr)
              (rows_at (displayData st') st') trs.
Proof.
  intros Hsort.
  destruct (sort_Returns_table _ _ _ _ Hsort) as (matches & el & trs & _ & _ & Hte & Htrs).
  destruct (sort_Returns_state _ _ _ _ Hsort) as (_ & _ & _ & _ & _ & _ & _ & _ & _ & _ & Hids).
  exists trs. rewrite Hte, all_tbody_app, all_tbody_decided, last_snoc, Hids.
  repeat split.
  apply mapM_Some in Htrs. eapply Forall2_impl; [exact Htrs|].
  intros row tr Htr. apply mapM_Some in Htr.
  eapply Forall2_impl; [exact Htr|]. intros key td. by rewrite render_td_Some.
Qed.

Lemma sort_replaces_the_first_body_witness :
  ∃ trs,
    all_tbody (tableElement age_sorted_once)
    = tail (all_tbody (tableElement (loaded_table name_age people))) ++ [trs]
    ∧ last (tableElement age_sorted_once) = Some (tbody trs)
    ∧ Forall2 (λ row tr,
                 Forall2 (λ key td, ∃ cell, row !! key = Some cell ∧ td = td_of cell)
                         (columnIds age_sorted_once) tr)
              (rows_at (displayData age_sorted_once) age_sorted_once) trs.
Proof.
  apply (sort_replaces_the_first_body plain_selector "age"
           (loaded_table name_age people) age_sorted_once).
  vm_compute. reflexivity.
Defined.


(** X15: when the header cell and a column are found but a row of a dataset
    of two or more rows has no cell for the column, and the column id is not
    a name the rows inherit from [Object.prototype], [sort] throws a
    [TypeError] midway: the arrays and the displayed dataset are untouched,
    but the column id is already selected and the first body is already
    removed. *)
Theorem sort_throws_on_missing_cell (sel : string → option (Th → bool))
    (columnId : string) (st : State) (matches : Th → bool) (colmunElement : ThRef)
    (rows : list Row) (row : Row) :
  sel columnId = Some matches →
  first_th matches 0 (tableElement st) = Some colmunElement →
  columnId ≠ EmptyString → header st ≠ [] →
  columnId ∉ Object_prototype →
  heap st !! originalData st = Some rows →
  (2 ≤ length rows)%nat → row ∈ rows → row !! columnId = None →
  ∃ st',
    sort sel columnId st = Throws TypeError st'
    ∧ heap st' = heap st
    ∧ displayData st' = displayData st
    ∧ selectedColumnId st' = columnId
    ∧ all_tbody (tableElement st') = tail (all_tbody (tableElement st)).
Proof.
  intros Hsel Hel Hne Hh Hout Hrows Hlen Hrow Hnone.
  exists (decided columnId colmunElement st).
  rewrite (sort_found _ _ _ _ _ Hsel Hel Hne Hh). unfold mbind, M_bind.
  rewrite _sort_unfold.
  change (rows_at (originalData (decided columnId colmunElement st))
                  (decided columnId colmunElement st))
    with (rows_at (originalData st) st).
  rewrite (rows_at_lookup _ _ _ Hrows).
  rewrite (proj2 (Array_sort_compareFn_None columnId _ rows)) by eauto.
  repeat split. apply all_tbody_decided.
Qed.



Lemma sort_throws_on_missing_cell_witness :
  ∃ st',
    sort plain_selector "age" (loaded_table name_age tied_rows) = Throws TypeError st'
    ∧ heap st' = heap (loaded_table name_age tied_rows)
    ∧ displayData st' = displayData (loaded_table name_age tied_rows)
    ∧ selectedColumnId st' = "age"
    ∧ all_tbody (tableElement st')
      = tail (all_tbody (tableElement (loaded_table name_age tied_rows))).
Proof.
  apply (sort_throws_on_missing_cell plain_selector "age"
           (loaded_table name_age tied_rows)
           (λ th, bool_decide (th_data_id th = Some "age")) (0%nat, 1%nat)
           tied_rows {[ "c" := plain "10" ]}).
  - reflexivity.
  - reflexivity.
  - discriminate.
  - discriminate.
  - apply (bool_decide_unpack _). vm_compute. exact I.
  - reflexivity.
  - simpl. lia.
  - by left.
  - reflexivity.
Defined.

(** ** The constructor *)

(** X17: the constructor throws when no container is found. Otherwise the
    controller starts with an empty header, no column ids, no selection and
    two distinct empty arrays of its own as backing and displayed dataset:
    neither is an array that existed before, and those are left as they
    were. *)
Theorem new_SortableTable_allocates_two_arrays (doc : Document)
    (children : list Node) (h : gmap loc (list Row)) :
  new_SortableTable doc None h = inl TableElementNotFound
  ∧ ∃ st,
      new_SortableTable doc (Some children) h = inr st
      ∧ tableElement st = children ∧ header st = [] ∧ columnIds st = []
      ∧ selectedColumnId st = EmptyString
      ∧ rows_at (originalData st) st = [] ∧ rows_at (displayData st) st = []
      ∧ originalData st ≠ displayData st
      ∧ (originalData st ∉ dom h) ∧ (displayData st ∉ dom h)
      ∧ ∀ l, l ∈ dom h → heap st !! l = h !! l.
Proof.
  split; [done|]. eexists. split; [reflexivity|]. simpl.
  pose proof (is_fresh (dom h)) as Ho.
  pose proof (is_fresh (dom (<[fresh (dom h) := []]> h))) as Hd.
  rewrite dom_insert_L in Hd.
  assert (fresh (dom h) ≠ fresh ({[fresh (dom h)]} ∪ dom h)) as Hne by set_solver.
  unfold rows_at. simpl. rewrite dom_insert_L.
  repeat split; try done.
  - by rewrite lookup_insert_ne, lookup_insert_eq.
  - by rewrite lookup_insert_eq.
  - set_solver.
  - intros l Hl. rewrite !lookup_insert_ne; [done|set_solver..].
Qed.

(** ** Events that cannot be served *)




(** X19: an event without a current target makes [onSort] throw and change
    nothing. A target without a [data-id] attribute is sorted by the empty
    column id, which never returns: the table, the datasets, the selection and
    the column ids are untouched, and the header is either untouched or has
    had every column id overwritten with the empty string. *)
Theorem onSort_without_data_id_never_sorts (sel : string → option (Th → bool))
    (st : State) :
  onSort sel None st = Throws SortTargetNotFound st
  ∧ onSort sel (Some None) st = sort sel EmptyString st
  ∧ ∃ e st',
      sort sel EmptyString st = Throws e st'
      ∧ (e = SyntaxError ∨ e = DataIdNotFound EmptyString)
      ∧ tableElement st' = tableElement st ∧ columnIds st' = columnIds st
      ∧ originalData st' = originalData st ∧ displayData st' = displayData st
      ∧ selectedColumnId st' = selectedColumnId st ∧ heap st' = heap st
      ∧ (header st' = header st ∨ header st' = with_id EmptyString <$> header st).
Proof.
  split; [done|]. split; [done|].
  destruct (sel EmptyString) as [matches|] eqn:Hsel.
  - destruct (first_th matches 0 (tableElement st)) as [el|] eqn:Hel.
    + rewrite (sort_empty_columnId _ _ _ _ Hsel Hel). eexists _, _. split; [done|].
      simpl. repeat split; auto.
    + rewrite (sort_no_header_cell _ _ _ _ Hsel Hel). eexists _, _. split; [done|].
      repeat split; auto.
  - exists SyntaxError, st. split.
    + unfold sort. unfold mbind at 1, M_bind at 1. unfold querySelector_data_id.
      by rewrite Hsel.
    + repeat split; auto.
Qed.

(** ** The caller's array *)

Lemma sort_Returns_heap (sel : string → option (Th → bool)) (columnId : string)
    (st st' : State) :
  sort sel columnId st = Returns () st' →
  heap st' = <[originalData st := rows_at (originalData st) st']> (heap st).
Proof.
  intros Hsort.
  destruct (sort_Returns_found _ _ _ _ Hsort) as (matches & el & Hsel & Hel & Hne & Hh).
  rewrite (sort_found _ _ _ _ _ Hsel Hel Hne Hh) in Hsort.
  unfold mbind, M_bind in Hsort. rewrite _sort_unfold in Hsort.
  destruct (Array_sort _ _) as [sorted|]; [|done].
  unfold modify in Hsort. rewrite renderData_unfold in Hsort.
  destruct (mapM _ _) as [trs|]; [|done].
  injection Hsort as <-. unfold rows_at, decided. simpl. by rewrite lookup_insert_eq.
Qed.

(** X20: the array given to [setData] is the array [sort] reorders. After
    [setData(D)] and a sort that returns, [getTableData] returns the
    reference of D, the array there holds the rows of D rearranged (in order
    for the direction applied, where the callback is transitive on them), and
    no other array has changed. *)
Theorem sort_reorders_the_callers_array (sel : string → option (Th → bool))
    (columnId : string) (st st1 st2 : State) (d : loc) (D : list Row) :
  heap st !! d = Some D →
  setData (Some d) st = Returns () st1 →
  sort sel columnId st1 = Returns () st2 →
  getTableData st2 = Returns d st2
  ∧ originalData st2 = d
  ∧ rows_at d st2 ≡ₚ D
  ∧ (consistent columnId D →
     StronglySorted
       (precedes (compareFn columnId (sign_of (Some (next_direction columnId st)))))
       (rows_at d st2))
  ∧ ∀ l, l ≠ d → heap st2 !! l = heap st !! l.
Proof.
  intros HD Hset Hsort. rewrite setData_unfold in Hset.
  destruct (mapM _ _) as [trs|]; [|done]. injection Hset as <-.
  destruct (sort_Returns_state _ _ _ _ Hsort)
    as (column & rest & sorted & _ & Hs & _ & _ & Hod & Hdd & Hrows & _).
  pose proof (sort_Returns_heap _ _ _ _ Hsort) as Hheap.
  simpl in Hod, Hdd, Hrows, Hheap.
  change (Array_sort (compareFn columnId (sign_of (Some (next_direction columnId st))))
                     (rows_at d st) = Some sorted) in Hs.
  rewrite (rows_at_lookup _ _ _ HD) in Hs.
  unfold getTableData, gets. rewrite Hdd, Hod, Hrows.
  split; [done|]. split; [done|].
  split; [by apply Array_sort_Permutation in Hs|].
  split; [by apply Array_sort_consistent|].
  intros l Hl. by rewrite Hheap, lookup_insert_ne.
Qed.

Lemma sort_reorders_the_callers_array_witness :
  getTableData age_sorted_once = Returns 0%nat age_sorted_once
  ∧ originalData age_sorted_once = 0%nat
  ∧ rows_at 0%nat age_sorted_once ≡ₚ people
  ∧ StronglySorted (precedes (compareFn "age" (sign_of (Some asc))))
                   (rows_at 0%nat age_sorted_once)
  ∧ ∀ l, l ≠ 0%nat →
      heap age_sorted_once !! l
      = heap (state_of (setHeader (Some name_age) (fresh_table people))) !! l.
Proof.
  destruct (sort_reorders_the_callers_array plain_selector "age"
              (state_of (setHeader (Some name_age) (fresh_table people)))
              (loaded_table name_age people) age_sorted_once 0%nat people)
    as (Hget & Hod & Hperm & Hsorted & Hrest);
    [reflexivity|vm_compute; reflexivity|vm_compute; reflexivity|].
  repeat split; auto.
  apply Hsorted, numeric_column_consistent, people_age_numeric.
Defined.

(** X21: [setData] does not reset the sort state. After a sort of a column
    and any [setData], the column is still selected, and the next sort of
    that column applies the flip of the direction applied before, not
    ascending. *)
Theorem setData_keeps_the_sort_selection (sel : string → option (Th → bool))
    (columnId : string) (st st1 : State) (data : option loc) :
  sort sel columnId st = Returns () st1 →
  let st2 := state_of (setData data st1) in
  selectedColumnId st2 = columnId
  ∧ next_direction columnId st2
    = getInversedSortDirection (Some (next_direction columnId st))
  ∧ ∀ st3, sort sel columnId st2 = Returns () st3 →
      sortDirection <$> head (header st3)
      = Some (Some (getInversedSortDirection (Some (next_direction columnId st)))).
Proof.
  intros Hsort.
  destruct (sort_Returns_state _ _ _ _ Hsort)
    as (column & rest & sorted & Hh & _ & Hh1 & Hsel1 & _).
  assert (selectedColumnId (state_of (setData data st1)) = columnId
          ∧ header (state_of (setData data st1)) = header st1) as [Hsel2 Hh2].
  { destruct data as [d|]; [|done]. rewrite setData_unfold.
    by destruct (mapM _ _). }
  cbv zeta. rewrite Hh1 in Hh2.
  pose proof (next_direction_after _ _ _ _ _ Hsel2 Hh2) as Hnext.
  split; [done|]. split; [done|]. intros st3 Hsort3.
  destruct (sort_Returns_state _ _ _ _ Hsort3) as (c3 & r3 & _ & _ & _ & Hh3 & _).
  by rewrite Hh3, Hnext.
Qed.

Lemma setData_keeps_the_sort_selection_witness :
  let st2 := state_of (setData (Some 0%nat) age_sorted_once) in
  selectedColumnId st2 = "age"
  ∧ next_direction "age" st2
    = getInversedSortDirection
        (Some (next_direction "age" (loaded_table name_age people)))
  ∧ ∀ st3, sort plain_selector "age" st2 = Returns () st3 →
      sortDirection <$> head (header st3)
      = Some (Some (getInversedSortDirection
                      (Some (next_direction "age" (loaded_table name_age people))))).
Proof.
  apply (setData_keeps_the_sort_selection plain_selector "age"
           (loaded_table name_age people) age_sorted_once (Some 0%nat)).
  vm_compute. reflexivity.
Defined.

(** X22: a string that passes [canCastToNumber] is left by [removeCommas]
    as a string of digits, so [Number] of it is the rounding of the integer
    it denotes and never [NaN]; removing commas twice is removing them
    once. *)
Theorem canCastToNumber_guards_Number (str : string) :
  canCastToNumber str = true →
  ∃ n,
    digits_value 0 (removeCommas str) = Some n
    ∧ Number (removeCommas str) = round_to_double n
    ∧ Number (removeCommas str) ≠ NaN
    ∧ removeCommas (removeCommas str) = removeCommas str.
Proof.
  intros Hc. assert (all_digit_or_comma str = true) as Hall by (by destruct str).
  destruct (digits_value_removeCommas str 0 Hall) as [n Hn].
  exists n. split; [done|]. unfold Number. rewrite Hn. split; [done|].
  split; [apply round_to_double_not_NaN|].
  clear. induction str as [|c s IH]; [done|]. simpl.
  destruct (Ascii.eqb c ",") eqn:Hcomma; [done|]. simpl. by rewrite Hcomma, IH.
Qed.

Lemma canCastToNumber_guards_Number_witness :
  ∃ n,
    digits_value 0 (removeCommas "1,000") = Some n
    ∧ Number (removeCommas "1,000") = round_to_double n
    ∧ Number (removeCommas "1,000") ≠ NaN
    ∧ removeCommas (removeCommas "1,000") = removeCommas "1,000".
Proof. apply (canCastToNumber_guards_Number "1,000"). reflexivity. Defined.
